(** * promise-queue-simple: the [Queue] class of [src/index.ts]

    A shallow embedding of the bounded-concurrency promise queue and the
    properties stated about it.  The class embedded is [export class Queue],
    the later of the two revisions of the class that the source holds: the
    one with [resolveObject] and [rejectObject], [continue], [fail] and
    [rejectAndContinue].

    JavaScript runs the class on one thread.  An [async] method runs
    synchronously up to its first [await]; what follows the [await] is a
    continuation that the event loop resumes later.  The embedding keeps the
    class fields in a record, the suspended continuations in a list
    ([pending]) and every [this.emit(...)] in a log ([trace]).  One
    transition ([step]) is either a call of a public method or the event loop
    resuming one continuation.

    Conventions:
    - numbers are [Z] (durations, counters that can go down) or [nat]
      (counters that start at 0 and only go up); JavaScript doubles are
      exact on the integers used here;
    - [undefined] is [None];
    - time is a clock ([now]) that [Tick] moves forward; a timer fires at
      its due time or any time later;
    - listeners are observers: they do not call back into the queue;
    - task factories return promises (they do not throw synchronously);
    - [resolveObject] and [rejectObject] are keyed by [index.toString()],
      which is injective on naturals, so the keys are [nat]. *)

From stdpp Require Import gmap list sorting.
From Stdlib Require Import ZArith Lia.

(** ** Data *)

Inductive OnRejection : Set :=
| THROW
| RETRY_THEN_THROW
| IGNORE
| RETRY_THEN_IGNORE.

(** What [retryCondition] returns: [{retry: boolean; interval?: number}]. *)
Record RetryDecision : Set := mkRetryDecision {
  retry : bool;
  rd_interval : option Z
}.

(** [x ?? y] where [y] may itself be [undefined]. *)
Definition coalesce {A : Type} (x y : option A) : option A :=
  match x with
  | Some _ => x
  | None => y
  end.

(** [a[i]] for a JavaScript array of numbers: [undefined] out of range,
    in particular at index [-1]. *)
Definition js_index (a : list Z) (i : Z) : option Z :=
  if (i <? 0)%Z then None else a !! Z.to_nat i.

Section QueueModel.

(** [T]: task results; [E]: rejection values ([unknown]); [F]: task
    factories ([() => Promise<T>]). *)
Context {T E F : Type}.

Record QueueOptions : Type := mkQueueOptions {
  opt_interval : option Z;
  opt_concurrent : option Z;
  opt_start : option bool;
  opt_guaranteeOrder : option bool;
  opt_onRejection : option OnRejection;
  opt_retryIntervals : option (list Z);
  opt_alwaysRetry : option bool;
  opt_retryCondition : option (E -> RetryDecision)
}.

Record QueueItem : Type := mkQueueItem {
  qi_index : nat;
  qi_fn : F
}.

Record InputInfo : Type := mkInputInfo {
  ii_index : nat;
  ii_startTime : Z;
  ii_fn : F
}.

(** The notifications of [QueueEvents<T>].  A [resolve] listener receives
    only [res]; the log also keeps the [InputInfo] the class holds next to
    that value ([resolveObject[k].inputInfo], or the argument [inputInfo]
    when order is not guaranteed), to name the task that resolved. *)
Inductive Event : Type :=
| EvResolve (res : T) (inputInfo : InputInfo)
| EvReject (err : E) (inputInfo : InputInfo)
| EvFail (err : E)
| EvStart
| EvStop
| EvEnd
| EvFinish
| EvPrepareRetry (err : E) (retryIn : option Z) (inputInfo : InputInfo)
| EvRetry (inputInfo : InputInfo)
| EvDequeue (inputInfo : InputInfo)
| EvEnqueue (item : QueueItem).

(** Suspended [async] frames.
    - [AwaitTask info n]: [await promise()] in [dequeue] ([n = 0]) or
      [await inputInfo.fn()] in [attemptRetry]; a rejection resumes with
      [handleRejection(err, info, n)];
    - [AwaitRetrySleep wake info n]: [await sleep(retryIn)] in
      [attemptRetry(_, n, _, info)], due at time [wake];
    - [AwaitPacing wake]: [await sleep(...)] in [continue], due at [wake]. *)
Inductive Cont : Type :=
| AwaitTask (inputInfo : InputInfo) (retryCount : nat)
| AwaitRetrySleep (wake : Z) (inputInfo : InputInfo) (retryCount : nat)
| AwaitPacing (wake : Z).

(** The read-only fields of the class, fixed by the constructor. *)
Record Config : Type := mkConfig {
  interval : Z;
  concurrent : Z;
  guaranteeOrder : bool;
  onRejection : OnRejection;
  retryIntervals : list Z;
  alwaysRetry : bool;
  retryCondition : option (E -> RetryDecision)
}.

(** The mutable fields of the class, followed by the environment: the clock
    ([Date.now()]), the suspended continuations and the event log. *)
Record Queue : Type := mkQueue {
  startOnAdd : bool;
  runningCount : Z;
  queue : list F;
  resolveObject : gmap nat (T * InputInfo);
  rejectObject : gmap nat E;
  index : nat;
  completed : nat;
  isRunning : bool;
  now : Z;
  pending : list Cont;
  trace : list Event
}.

Definition set_startOnAdd (v : bool) (s : Queue) : Queue :=
  mkQueue v (runningCount s) (queue s) (resolveObject s) (rejectObject s)
    (index s) (completed s) (isRunning s) (now s) (pending s) (trace s).

Definition set_runningCount (v : Z) (s : Queue) : Queue :=
  mkQueue (startOnAdd s) v (queue s) (resolveObject s) (rejectObject s)
    (index s) (completed s) (isRunning s) (now s) (pending s) (trace s).

Definition set_queue (v : list F) (s : Queue) : Queue :=
  mkQueue (startOnAdd s) (runningCount s) v (resolveObject s) (rejectObject s)
    (index s) (completed s) (isRunning s) (now s) (pending s) (trace s).

Definition set_resolveObject (v : gmap nat (T * InputInfo)) (s : Queue) : Queue :=
  mkQueue (startOnAdd s) (runningCount s) (queue s) v (rejectObject s)
    (index s) (completed s) (isRunning s) (now s) (pending s) (trace s).

Definition set_rejectObject (v : gmap nat E) (s : Queue) : Queue :=
  mkQueue (startOnAdd s) (runningCount s) (queue s) (resolveObject s) v
    (index s) (completed s) (isRunning s) (now s) (pending s) (trace s).

Definition set_index (v : nat) (s : Queue) : Queue :=
  mkQueue (startOnAdd s) (runningCount s) (queue s) (resolveObject s)
    (rejectObject s) v (completed s) (isRunning s) (now s) (pending s) (trace s).

Definition set_completed (v : nat) (s : Queue) : Queue :=
  mkQueue (startOnAdd s) (runningCount s) (queue s) (resolveObject s)
    (rejectObject s) (index s) v (isRunning s) (now s) (pending s) (trace s).

Definition set_isRunning (v : bool) (s : Queue) : Queue :=
  mkQueue (startOnAdd s) (runningCount s) (queue s) (resolveObject s)
    (rejectObject s) (index s) (completed s) v (now s) (pending s) (trace s).

Definition set_now (v : Z) (s : Queue) : Queue :=
  mkQueue (startOnAdd s) (runningCount s) (queue s) (resolveObject s)
    (rejectObject s) (index s) (completed s) (isRunning s) v (pending s) (trace s).

Definition set_pending (v : list Cont) (s : Queue) : Queue :=
  mkQueue (startOnAdd s) (runningCount s) (queue s) (resolveObject s)
    (rejectObject s) (index s) (completed s) (isRunning s) (now s) v (trace s).

Definition set_trace (v : list Event) (s : Queue) : Queue :=
  mkQueue (startOnAdd s) (runningCount s) (queue s) (resolveObject s)
    (rejectObject s) (index s) (completed s) (isRunning s) (now s) (pending s) v.

(** [this.emit(ev)] *)
Definition emit (ev : Event) (s : Queue) : Queue :=
  set_trace (trace s ++ [ev]) s.

(** An [await]: the rest of the frame is parked until the event loop
    resumes it. *)
Definition suspend (k : Cont) (s : Queue) : Queue :=
  set_pending (pending s ++ [k]) s.

(** ** The constructor *)

Definition constructor (options : option QueueOptions) : Config * Queue :=
  let opt {A : Type} (f : QueueOptions -> option A) (d : A) : A :=
    default d (options ≫= f) in
  (mkConfig
     (opt opt_interval 500%Z)
     (opt opt_concurrent 5%Z)
     (opt opt_guaranteeOrder true)
     (opt opt_onRejection RETRY_THEN_THROW)
     (opt opt_retryIntervals [1000; 2000; 5000; 10000; 20000; 60000]%Z)
     (opt opt_alwaysRetry false)
     (options ≫= opt_retryCondition),
   mkQueue (opt opt_start true) 0%Z [] ∅ ∅ 0 0 false 0%Z [] []).

(** ** The methods *)

Section Methods.

Variable c : Config.

Definition size (s : Queue) : nat := length (queue s).

Definition isEmpty (s : Queue) : bool := Nat.eqb (size s) 0.

Definition shouldRun (s : Queue) : bool :=
  (runningCount s <? concurrent c)%Z && negb (isEmpty s).

Definition started (s : Queue) : bool := isRunning s.

Definition stopped (s : Queue) : bool :=
  negb (startOnAdd s) && negb (started s).

Definition end_ (s : Queue) : Queue :=
  if started s then emit EvEnd (set_isRunning false s) else s.

Definition fail (err : E) (s : Queue) : Queue :=
  if started s then end_ (emit (EvFail err) s) else s.

(** [dequeue], up to its [await]. *)
Definition dequeue (s : Queue) : Queue :=
  match queue s with
  | promise :: rest =>
      let s := set_queue rest s in
      let startTime := now s in
      let s := set_runningCount (runningCount s + 1) s in
      let index := index s in
      let s := set_index (S index) s in
      let inputInfo := mkInputInfo index startTime promise in
      let s := emit (EvDequeue inputInfo) s in
      suspend (AwaitTask inputInfo 0) s
  | [] => emit EvFinish (end_ s)
  end.

(** [continue], up to its [await sleep(Math.max(0, ...))]. *)
Definition continue (inputInfo : InputInfo) (s : Queue) : Queue :=
  let s := set_runningCount (runningCount s - 1) s in
  suspend
    (AwaitPacing (now s + Z.max 0 (ii_startTime inputInfo + interval c - now s)))
    s.

(** [continue], after the sleep. *)
Definition continue_resume (s : Queue) : Queue :=
  if started s then dequeue s else s.

(** The [while] loop of [attemptEmit].  Every turn deletes one key from one
    of the two objects, so the number of keys bounds the number of turns
    ([drain_enough_fuel]). *)
Fixpoint drain (fuel : nat) (s : Queue) : Queue :=
  match fuel with
  | O => s
  | S fuel' =>
      match resolveObject s !! completed s with
      | Some r =>
          let s := emit (EvResolve (fst r) (snd r)) s in
          let s := set_resolveObject (delete (completed s) (resolveObject s)) s in
          drain fuel' (set_completed (S (completed s)) s)
      | None =>
          match rejectObject s !! completed s with
          | Some _ =>
              let s := set_rejectObject (delete (completed s) (rejectObject s)) s in
              drain fuel' (set_completed (S (completed s)) s)
          | None => s
          end
      end
  end.

Definition drain_fuel (s : Queue) : nat :=
  base.size (resolveObject s) + base.size (rejectObject s).

Definition attemptEmit (res : T) (inputInfo : InputInfo) (s : Queue) : Queue :=
  let s :=
    if guaranteeOrder c then
      let s :=
        set_resolveObject
          (<[ii_index inputInfo := (res, inputInfo)]> (resolveObject s)) s in
      drain (drain_fuel s) s
    else emit (EvResolve res inputInfo) s in
  continue inputInfo s.

Definition rejectAndContinue (err : E) (inputInfo : InputInfo) (s : Queue) : Queue :=
  let s := emit (EvReject err inputInfo) s in
  let s := set_rejectObject (<[ii_index inputInfo := err]> (rejectObject s)) s in
  let s := set_runningCount (runningCount s - 1) s in
  dequeue s.

(** [interval ?? this.retryIntervals[retryCount]
       ?? this.retryIntervals[this.retryIntervals.length - 1]] *)
Definition retryIn (interval : option Z) (retryCount : nat) : option Z :=
  coalesce interval
    (coalesce (js_index (retryIntervals c) (Z.of_nat retryCount))
       (js_index (retryIntervals c) (Z.of_nat (length (retryIntervals c)) - 1))).

(** [setTimeout] fires no earlier than [ms] from now; a missing or negative
    delay counts as none. *)
Definition sleep_until (s : Queue) (ms : option Z) : Z :=
  (now s + Z.max 0 (default 0 ms))%Z.

(** [attemptRetry], up to its [await sleep(retryIn)]. *)
Definition attemptRetry (interval : option Z) (retryCount : nat) (err : E)
    (inputInfo : InputInfo) (s : Queue) : Queue :=
  if alwaysRetry c || (retryCount <? length (retryIntervals c))%nat then
    let retryIn := retryIn interval retryCount in
    let s := emit (EvPrepareRetry err retryIn inputInfo) s in
    suspend (AwaitRetrySleep (sleep_until s retryIn) inputInfo retryCount) s
  else
    match onRejection c with
    | RETRY_THEN_THROW => fail err s
    | _ => rejectAndContinue err inputInfo s
    end.

(** [attemptRetry], after the sleep and up to [await inputInfo.fn()]. *)
Definition attemptRetry_resume (inputInfo : InputInfo) (retryCount : nat)
    (s : Queue) : Queue :=
  let s := emit (EvRetry inputInfo) s in
  suspend (AwaitTask inputInfo (S retryCount)) s.

(** [const shouldRetry = this.retryCondition?.(err)] *)
Definition shouldRetry (err : E) : option RetryDecision :=
  (fun f => f err) <$> retryCondition c.

Definition handleRejection (err : E) (inputInfo : InputInfo) (retryCount : nat)
    (s : Queue) : Queue :=
  match onRejection c with
  | THROW => fail err s
  | RETRY_THEN_THROW =>
      let shouldRetry := shouldRetry err in
      if default true (retry <$> shouldRetry) then
        attemptRetry (shouldRetry ≫= rd_interval) retryCount err inputInfo s
      else fail err s
  | IGNORE => rejectAndContinue err inputInfo s
  | RETRY_THEN_IGNORE =>
      let shouldRetry := shouldRetry err in
      if default true (retry <$> shouldRetry) then
        attemptRetry (shouldRetry ≫= rd_interval) retryCount err inputInfo s
      else rejectAndContinue err inputInfo s
  end.

(** The [while (this.shouldRun) this.dequeue()] loop of [start].  Every turn
    shifts one entry off the queue, so its length bounds the number of turns
    ([start_loop_enough_fuel]). *)
Fixpoint start_loop (fuel : nat) (s : Queue) : Queue :=
  match fuel with
  | O => s
  | S fuel' => if shouldRun s then start_loop fuel' (dequeue s) else s
  end.

Definition start (s : Queue) : Queue :=
  let s := set_isRunning true s in
  let s := set_startOnAdd true s in
  let s := emit EvStart s in
  start_loop (size s) s.

Definition stop (s : Queue) : Queue :=
  let s := set_startOnAdd false s in
  let s := emit EvStop s in
  end_ s.

Definition enqueue (promise : F) (s : Queue) : Queue :=
  let s := set_queue (queue s ++ [promise]) s in
  let s := emit (EvEnqueue (mkQueueItem (length (queue s) - 1) promise)) s in
  if shouldRun s && startOnAdd s then start s else s.

Definition clear (s : Queue) : Queue :=
  let s := set_queue [] s in
  let s := set_resolveObject ∅ s in
  let s := set_rejectObject ∅ s in
  let s := set_index 0 s in
  let s := set_completed 0 s in
  let s := set_isRunning false s in
  set_runningCount 0 s.

(** ** The event loop *)

(** What can happen next: a call of a public method, time passing, the
    promise awaited by the [i]-th suspended frame settling ([inl]: fulfilled,
    [inr]: rejected), or the timer of the [i]-th suspended frame firing. *)
Inductive Label : Type :=
| CallEnqueue (promise : F)
| CallStart
| CallStop
| CallClear
| CallDequeue
| Tick (dt : Z)
| Settle (i : nat) (outcome : T + E)
| Wake (i : nat).

Definition step (s : Queue) (l : Label) : option Queue :=
  match l with
  | CallEnqueue promise => Some (enqueue promise s)
  | CallStart => Some (start s)
  | CallStop => Some (stop s)
  | CallClear => Some (clear s)
  | CallDequeue => Some (dequeue s)
  | Tick dt => if (0 <=? dt)%Z then Some (set_now (now s + dt)%Z s) else None
  | Settle i outcome =>
      match pending s !! i with
      | Some (AwaitTask inputInfo retryCount) =>
          let s := set_pending (delete i (pending s)) s in
          Some match outcome with
               | inl res => attemptEmit res inputInfo s
               | inr err => handleRejection err inputInfo retryCount s
               end
      | _ => None
      end
  | Wake i =>
      match pending s !! i with
      | Some (AwaitRetrySleep wake inputInfo retryCount) =>
          if (wake <=? now s)%Z then
            Some (attemptRetry_resume inputInfo retryCount
                    (set_pending (delete i (pending s)) s))
          else None
      | Some (AwaitPacing wake) =>
          if (wake <=? now s)%Z then
            Some (continue_resume (set_pending (delete i (pending s)) s))
          else None
      | _ => None
      end
  end.

Fixpoint run (s : Queue) (ls : list Label) : option Queue :=
  match ls with
  | [] => Some s
  | l :: ls' =>
      match step s l with
      | Some s' => run s' ls'
      | None => None
      end
  end.

End Methods.

(** ** Vocabulary of the properties *)

Implicit Types (c : Config) (s : Queue) (inputInfo : InputInfo) (err : E).

(** The state a constructor call leaves behind, by its auto-start flag. *)
Definition fresh (autoStart : bool) : Queue :=
  mkQueue autoStart 0%Z [] ∅ ∅ 0 0 false 0%Z [] [].

(** Public calls only. *)
Definition is_call (l : Label) : Prop :=
  match l with
  | Tick _ | Settle _ _ | Wake _ => False
  | _ => True
  end.

(** *** [clear] *)

(** The eight mutable fields of the class. *)
Definition class_fields s :=
  (startOnAdd s, runningCount s, queue s, resolveObject s, rejectObject s,
   index s, completed s, isRunning s).

(** *** Rejections: [fail], [rejectAndContinue], [attemptRetry] *)

Definition retry_capable c : Prop :=
  onRejection c = RETRY_THEN_THROW ∨ onRejection c = RETRY_THEN_IGNORE.

(** The decision taken for [err] is to retry, without an override interval:
    there is no predicate, or it answers [{retry: true}]. *)
Definition retries_plainly c err : Prop :=
  default true (retry <$> shouldRetry c err) = true ∧
  shouldRetry c err ≫= rd_interval = None.

(** The guard of [attemptRetry]. *)
Definition attempts_left c (retryCount : nat) : bool :=
  alwaysRetry c || (retryCount <? length (retryIntervals c)).

(** The wait of a retry as the specification words it: the override when
    there is one, else the ladder entry at the attempt count, else (attempt
    count at or beyond the ladder length) the last ladder entry. *)
Definition wait_duration c (override : option Z) (attempt : nat) : option Z :=
  match override with
  | Some ms => Some ms
  | None =>
      if attempt <? length (retryIntervals c)
      then retryIntervals c !! attempt
      else last (retryIntervals c)
  end.

(** What [rejectAndContinue] leaves in the log, by the pending queue. *)
Definition reject_events err inputInfo s : list Event :=
  EvReject err inputInfo ::
  match queue s with
  | promise :: _ => [EvDequeue (mkInputInfo (index s) (now s) promise)]
  | [] => (if started s then [EvEnd] else []) ++ [EvFinish]
  end.

(** *** A task that keeps failing *)

(** The task suspended at position [i] rejects at attempt count [attempt],
    the computed wait passes, and the retry is started. *)
Definition retry_round c err (i attempt : nat) : list Label :=
  [Settle i (inr err);
   Tick (Z.max 0 (default 0%Z (wait_duration c None attempt)));
   Wake i].

Fixpoint retry_rounds c err (i attempt n : nat) : list Label :=
  match n with
  | O => []
  | S n' => retry_round c err i attempt ++ retry_rounds c err i (S attempt) n'
  end.

Fixpoint retry_events c err inputInfo (attempt n : nat) : list Event :=
  match n with
  | O => []
  | S n' =>
      EvPrepareRetry err (wait_duration c None attempt) inputInfo ::
      EvRetry inputInfo :: retry_events c err inputInfo (S attempt) n'
  end.

(** *** What a fulfilled task changes *)

Definition is_resolve (ev : Event) : Prop :=
  match ev with
  | EvResolve _ _ => True
  | _ => False
  end.

Definition is_dequeue_event (ev : Event) : Prop :=
  match ev with
  | EvDequeue _ => True
  | _ => False
  end.

(** *** Failures and their notifications *)

(** The failure is retried: the policy is retry-capable, the predicate (if
    any) does not decline, and attempts are left. *)
Definition will_retry c err (retryCount : nat) : bool :=
  match onRejection c with
  | RETRY_THEN_THROW | RETRY_THEN_IGNORE =>
      default true (retry <$> shouldRetry c err) && attempts_left c retryCount
  | _ => false
  end.

(** The terminal outcome of the policy is the fatal one. *)
Definition fatal c : bool :=
  match onRejection c with
  | THROW | RETRY_THEN_THROW => true
  | _ => false
  end.

(** [reject] and [fail] notifications. *)
Definition surfaces (ev : Event) : bool :=
  match ev with
  | EvReject _ _ | EvFail _ => true
  | _ => false
  end.

Definition failure_events c err inputInfo (retryCount : nat) s : list Event :=
  if will_retry c err retryCount then
    [EvPrepareRetry err
       (retryIn c (shouldRetry c err ≫= rd_interval) retryCount) inputInfo]
  else if fatal c then
    if started s then [EvFail err; EvEnd] else []
  else reject_events err inputInfo s.

(** *** Fail-fast *)

(** The calls that start tasks: [enqueue] and [start], which set the queue
    running again, and a direct [dequeue]. *)
Definition restarts (l : Label) : Prop :=
  match l with
  | CallEnqueue _ | CallStart | CallDequeue => True
  | _ => False
  end.

(** *** The in-flight count *)

(** [ok s l]: label [l] is allowed in state [s]; [guarded c ok s ls]: every
    label of [ls] is allowed in the state where it is taken. *)
Fixpoint guarded c (ok : Queue → Label → Prop) s (ls : list Label) : Prop :=
  match ls with
  | [] => True
  | l :: ls' =>
      ok s l ∧
      match step c s l with
      | Some s' => guarded c ok s' ls'
      | None => True
      end
  end.

Definition is_pacing (k : Cont) : bool :=
  match k with
  | AwaitPacing _ => true
  | _ => false
  end.

(** Frames of tasks that hold a slot: awaiting the task, or the retry wait. *)
Definition is_task (k : Cont) : bool := negb (is_pacing k).

Definition count (p : Cont → bool) (ks : list Cont) : nat :=
  length (List.filter p ks).

Definition pacing_waits s : Z := Z.of_nat (count is_pacing (pending s)).

Definition task_frames s : Z := Z.of_nat (count is_task (pending s)).

(** Calls that leave the slots alone: no direct [dequeue], no [clear], and no
    [enqueue] or [start] while a pacing wait is pending. *)
Definition undisturbed s (l : Label) : Prop :=
  match l with
  | CallDequeue | CallClear => False
  | CallEnqueue _ | CallStart => pacing_waits s = 0%Z
  | _ => True
  end.

(** *** The order of [resolve] notifications *)

Definition resolved_of (ev : Event) : option nat :=
  match ev with
  | EvResolve _ inputInfo => Some (ii_index inputInfo)
  | _ => None
  end.

Definition rejected_of (ev : Event) : option nat :=
  match ev with
  | EvReject _ inputInfo => Some (ii_index inputInfo)
  | _ => None
  end.

Definition frame_index (k : Cont) : option nat :=
  match k with
  | AwaitTask inputInfo _ | AwaitRetrySleep _ inputInfo _ =>
      Some (ii_index inputInfo)
  | AwaitPacing _ => None
  end.

(** Sequence numbers of the [resolve] notifications of a log, in order. *)
Definition resolved (tr : list Event) : list nat := omap resolved_of tr.

(** Sequence numbers of the [reject] notifications of a log. *)
Definition rejected (tr : list Event) : list nat := omap rejected_of tr.

(** Sequence numbers of the tasks that have a suspended frame. *)
Definition live (ks : list Cont) : list nat := omap frame_index ks.

(** The bookkeeping behind the order guarantee, on the sequence numbers
    [lv] of the unfinished tasks, the stored values [res], the cursor [cmp],
    the next sequence number [idx], and the sequence numbers [rs] and [rj]
    of the [resolve] and [reject] notifications emitted so far. *)
Record order_view (lv : list nat) (res : gmap nat (T * InputInfo))
    (cmp idx : nat) (rs rj : list nat) : Prop := mkOrderView {
  ov_sorted : StronglySorted lt rs;
  ov_below : ∀ k, k ∈ rs → k < cmp;
  ov_key : ∀ k r, res !! k = Some r → ii_index r.2 = k;
  ov_nodup : NoDup lv;
  ov_live : ∀ k, k ∈ lv → k < idx ∧ res !! k = None ∧ (k ∉ rs) ∧ (k ∉ rj);
  ov_stored : ∀ k, is_Some (res !! k) → k < idx ∧ k ∉ rj;
  ov_resolved : ∀ k, k ∈ rs → k < idx ∧ k ∉ rj;
  ov_rejected : ∀ k, k ∈ rj → k < idx
}.

(** The bookkeeping on a state; [extra] holds the sequence number of the
    task whose frame is being resumed, if any. *)
Definition order_inv_with (extra : list nat) s : Prop :=
  order_view (extra ++ live (pending s)) (resolveObject s) (completed s)
    (index s) (resolved (trace s)) (rejected (trace s)).

Definition order_inv s : Prop := order_inv_with [] s.

(** *** Every resolved task was dequeued *)

Definition dequeued_of (ev : Event) : option InputInfo :=
  match ev with
  | EvDequeue inputInfo => Some inputInfo
  | _ => None
  end.

Definition resolved_info_of (ev : Event) : option InputInfo :=
  match ev with
  | EvResolve _ inputInfo => Some inputInfo
  | _ => None
  end.

Definition frame_info (k : Cont) : option InputInfo :=
  match k with
  | AwaitTask inputInfo _ | AwaitRetrySleep _ inputInfo _ => Some inputInfo
  | AwaitPacing _ => None
  end.

(** The tasks announced by [dequeue] notifications, in order. *)
Definition dequeued (tr : list Event) : list InputInfo := omap dequeued_of tr.

(** The tasks named by [resolve] notifications, in order. *)
Definition resolved_infos (tr : list Event) : list InputInfo :=
  omap resolved_info_of tr.

(** The tasks that have a suspended frame. *)
Definition frames (ks : list Cont) : list InputInfo := omap frame_info ks.

(** [dequeue] notifications number the tasks 0, 1, 2, ...; the suspended
    frames [fr], the stored values [res] and the [resolve] notifications
    [rs] all belong to tasks announced in [dq]. *)
Record announce_view (fr : list InputInfo) (res : gmap nat (T * InputInfo))
    (idx : nat) (dq rs : list InputInfo) : Prop := mkAnnounceView {
  av_numbered : ii_index <$> dq = seq 0 idx;
  av_frames : ∀ inputInfo, inputInfo ∈ fr → inputInfo ∈ dq;
  av_stored : ∀ k r, res !! k = Some r → r.2 ∈ dq;
  av_resolved : ∀ inputInfo, inputInfo ∈ rs → inputInfo ∈ dq
}.

Definition announce_inv_with (extra : list InputInfo) s : Prop :=
  announce_view (extra ++ frames (pending s)) (resolveObject s) (index s)
    (dequeued (trace s)) (resolved_infos (trace s)).

Definition announce_inv s : Prop := announce_inv_with [] s.

(** *** What [start] takes *)

(** The slots that are free: the limit less the in-flight count, if any. *)
Definition free_slots c s : nat := Z.to_nat (concurrent c - runningCount s).

(** The number of pending tasks that the loop of [start] dequeues. *)
Definition admitted c s : nat := min (size s) (free_slots c s).

(** The [InputInfo] of tasks [fns] dequeued one after the other at time [t],
    the first one getting sequence number [idx]. *)
Definition dequeue_infos (idx : nat) (t : Z) (fns : list F) : list InputInfo :=
  imap (λ i promise, mkInputInfo (idx + i) t promise) fns.

(** *** What [attemptEmit] leaves *)

(** [attemptEmit] adds the notifications [new] to the log and leaves the
    stored values [res], the recorded rejections [rej] and the cursor
    [cmp]. *)
Definition emit_result c (v : T) inputInfo s (new : list Event)
    (res : gmap nat (T * InputInfo)) (rej : gmap nat E) (cmp : nat) : Prop :=
  let s' := attemptEmit c v inputInfo s in
  trace s' = trace s ++ new ∧
  resolveObject s' = res ∧
  rejectObject s' = rej ∧
  completed s' = cmp.

(** *** Where the cursor stands *)

(** What the cursor has passed, on the same components as [order_view] and
    the recorded rejections [rej]: every sequence number below the cursor
    was resolved or rejected; every record of [rej] belongs to a [reject]
    notification; every rejected sequence number that the cursor has not
    passed is still recorded in [rej]; and the stored values and the
    unfinished tasks are not below the cursor. *)
Record cursor_view (lv : list nat) (res : gmap nat (T * InputInfo))
    (rej : gmap nat E) (cmp idx : nat) (rs rj : list nat) : Prop :=
  mkCursorView {
  cv_passed : ∀ k, k < cmp → k ∈ rs ∨ k ∈ rj;
  cv_recorded : ∀ k, is_Some (rej !! k) → k ∈ rj;
  cv_kept : ∀ k, k ∈ rj → cmp ≤ k → is_Some (rej !! k);
  cv_stored : ∀ k, is_Some (res !! k) → cmp ≤ k;
  cv_live : ∀ k, k ∈ lv → cmp ≤ k;
  cv_bound : cmp ≤ idx
}.

Definition cursor_inv_with (extra : list nat) s : Prop :=
  cursor_view (extra ++ live (pending s)) (resolveObject s) (rejectObject s)
    (completed s) (index s) (resolved (trace s)) (rejected (trace s)).

(** Between two steps the cursor moreover rests where no value is stored. *)
Definition cursor_inv s : Prop :=
  cursor_inv_with [] s ∧ resolveObject s !! completed s = None.

(** *** The values delivered *)

Definition resolve_value (ev : Event) : option T :=
  match ev with
  | EvResolve res _ => Some res
  | _ => None
  end.

(** The values passed to the [resolve] listeners, in order. *)
Definition resolve_values (tr : list Event) : list T := omap resolve_value tr.

Definition resolution_of (ev : Event) : option (nat * T) :=
  match ev with
  | EvResolve res inputInfo => Some (ii_index inputInfo, res)
  | _ => None
  end.

(** The [resolve] notifications of a log, in order: the sequence number of
    the task and the value passed to the listeners. *)
Definition resolutions (tr : list Event) : list (nat * T) :=
  omap resolution_of tr.

Definition fulfilment (l : Label) : option T :=
  match l with
  | Settle _ (inl res) => Some res
  | _ => None
  end.

(** The sequence number of the task that label [l] fulfils in state [s], and
    the value it is fulfilled with, if [l] fulfils a task. *)
Definition fulfilled_by s (l : Label) : option (nat * T) :=
  match l with
  | Settle i (inl res) =>
      match pending s !! i with
      | Some (AwaitTask inputInfo _) => Some (ii_index inputInfo, res)
      | _ => None
      end
  | _ => None
  end.

(** The tasks fulfilled along a run, by sequence number and with the value
    each one was fulfilled with, in the order in which they settled. *)
Fixpoint fulfilled c s (ls : list Label) : list (nat * T) :=
  match ls with
  | [] => []
  | l :: ls' =>
      option_list (fulfilled_by s l) ++
      match step c s l with
      | Some s' => fulfilled c s' ls'
      | None => []
      end
  end.

(** The values on their way, against the tasks [acc] fulfilled so far: every
    [resolve] notification and every stored value is the value its task was
    fulfilled with; every fulfilled task has its value stored or delivered;
    no task was fulfilled twice. *)
Definition values_inv (acc : list (nat * T)) s : Prop :=
  (∀ kv, kv ∈ resolutions (trace s) → kv ∈ acc) ∧
  (∀ k r, resolveObject s !! k = Some r → (k, r.1) ∈ acc) ∧
  (∀ k, k ∈ acc.*1 →
        is_Some (resolveObject s !! k) ∨ k ∈ resolved (trace s)) ∧
  NoDup acc.*1.

(** *** Rejections that are not fatal *)

(** The sequence number of the task whose failure label [l] ends in a
    rejection that is not fatal (its failure is not retried and the terminal
    outcome of the policy is the per-task one), if [l] is such a failure in
    state [s]. *)
Definition rejected_by c s (l : Label) : option nat :=
  match l with
  | Settle i (inr err) =>
      match pending s !! i with
      | Some (AwaitTask inputInfo retryCount) =>
          if will_retry c err retryCount then None
          else if fatal c then None
          else Some (ii_index inputInfo)
      | _ => None
      end
  | _ => None
  end.

(** The sequence numbers rejected along a run without a fatal outcome, in
    the order of the rejections. *)
Fixpoint rejections c s (ls : list Label) : list nat :=
  match ls with
  | [] => []
  | l :: ls' =>
      option_list (rejected_by c s l) ++
      match step c s l with
      | Some s' => rejections c s' ls'
      | None => []
      end
  end.

End QueueModel.

(** * Concrete inputs

    Tasks, results and errors are numbers: task 7 is the factory enqueued
    first, 70 its result, and so on. *)

(** Options with a concurrency limit, a rejection policy, a backoff ladder
    and an always-retry flag; the rest is left out. *)
Definition options_with (limit : option Z) (policy : option OnRejection)
    (ladder : option (list Z)) (always : option bool) : @QueueOptions nat :=
  mkQueueOptions None limit None None policy ladder always None.

(** All defaults: five slots, retry-then-fail, six-step ladder. *)
Definition default_config : @Config nat :=
  (constructor (T:=nat) (F:=nat) None).1.

Definition new_queue : @Queue nat nat nat := (constructor None).2.

Definition config_of (options : @QueueOptions nat) : @Config nat :=
  (constructor (T:=nat) (F:=nat) (Some options)).1.

Definition queue_of (options : @QueueOptions nat) : @Queue nat nat nat :=
  (constructor (Some options)).2.

(** Six direct [dequeue] calls on a stopped queue of six tasks. *)
Definition direct_dequeue_run : list (@Label nat nat nat) :=
  CallStop :: replicate 6 (CallEnqueue 7) ++ replicate 6 CallDequeue.

(** A task settles after [clear]. *)
Definition clear_mid_run : list (@Label nat nat nat) :=
  [CallEnqueue 7; CallClear; Settle 0 (inl 70)].

Definition one_slot : @QueueOptions nat :=
  options_with (Some 1%Z) None None None.

(** On a one-slot queue, an [enqueue] during the pacing wait of the first
    task: [start] takes the freed slot, and so does the wake-up. *)
Definition enqueue_while_pacing_run : list (@Label nat nat nat) :=
  [CallEnqueue 7; CallEnqueue 8; CallEnqueue 9; Settle 0 (inl 70);
   CallEnqueue 10; Tick 500; Wake 0].

(** Two tasks run to completion, the second one settling first. *)
Definition two_tasks_run : list (@Label nat nat nat) :=
  [CallEnqueue 7; CallEnqueue 8; Settle 1 (inl 80); Settle 0 (inl 70);
   Tick 500; Wake 0; Wake 0].

(** The second task settles first; its value waits in [resolveObject]. *)
Definition out_of_order_run : list (@Label nat nat nat) :=
  [CallEnqueue 7; CallEnqueue 8; Settle 1 (inl 80); Settle 0 (inl 70)].

(** Five tasks in flight, a sixth one pending. *)
Definition full_queue : @Queue nat nat nat :=
  default new_queue
    (run default_config new_queue (replicate 6 (CallEnqueue 7))).

(** One task in flight, the queue running. *)
Definition running_queue (c : @Config nat) : @Queue nat nat nat :=
  enqueue c 7 new_queue.

Definition first_task : @InputInfo nat := mkInputInfo 0 0 7.

Definition retry_then_ignore : @QueueOptions nat :=
  options_with None (Some RETRY_THEN_IGNORE) (Some [1; 2; 3]%Z) None.

Definition always_retry : @QueueOptions nat :=
  options_with None None (Some [1; 2; 3]%Z) (Some true).

Definition empty_ladder : @QueueOptions nat :=
  options_with None None (Some []) (Some true).

Definition fail_fast : @QueueOptions nat :=
  options_with None (Some THROW) None None.

Definition short_ladder : @QueueOptions nat :=
  options_with None None (Some [1%Z]) None.

Definition ignore : @QueueOptions nat :=
  options_with None (Some IGNORE) None None.

(** Of three tasks the second one is fulfilled first, then the first one
    fails, then the third one is fulfilled. *)
Definition rejected_first_run : list (@Label nat nat nat) :=
  [CallEnqueue 7; CallEnqueue 8; CallEnqueue 9; Settle 1 (inl 80);
   Settle 0 (inr 5); Settle 0 (inl 90)].

(** Tasks 7 and 8 are enqueued and 7 is fulfilled; after [clear], tasks 9
    and 10 are enqueued; then 9, 8 and 10 are fulfilled, in this order. *)
Definition clear_reorders_run : list (@Label nat nat nat) :=
  [CallEnqueue 7; CallEnqueue 8; Settle 0 (inl 70); CallClear;
   CallEnqueue 9; CallEnqueue 10; Settle 2 (inl 90); Settle 0 (inl 80);
   Settle 1 (inl 100)].

(** * Properties *)

Section Properties.

Context {T E F : Type}.

Local Abbreviation QueueOptions := (@QueueOptions E).
Local Abbreviation InputInfo := (@InputInfo F).
Local Abbreviation Event := (@Event T E F).
Local Abbreviation Cont := (@Cont F).
Local Abbreviation Config := (@Config E).
Local Abbreviation Queue := (@Queue T E F).
Local Abbreviation Label := (@Label T E F).
Local Abbreviation constructor := (@constructor T E F).
Local Abbreviation fresh := (@fresh T E F).
Local Abbreviation order_view := (@order_view T F).
Local Abbreviation announce_view := (@announce_view T F).

Implicit Types (c : Config) (s : Queue) (inputInfo : InputInfo) (err : E).

(** ** Basic facts *)

Lemma constructor_fresh (options : option QueueOptions) :
  (constructor options).2 = fresh (default true (options ≫= opt_start)).
Proof. reflexivity. Qed.

Lemma dequeue_cons s promise rest :
  queue s = promise :: rest →
  dequeue s =
    mkQueue (startOnAdd s) (runningCount s + 1)%Z rest (resolveObject s)
      (rejectObject s) (S (index s)) (completed s) (isRunning s) (now s)
      (pending s ++ [AwaitTask (mkInputInfo (index s) (now s) promise) 0])
      (trace s ++ [EvDequeue (mkInputInfo (index s) (now s) promise)]).
Proof. intros Hq. unfold dequeue. rewrite Hq. reflexivity. Qed.

Lemma dequeue_nil s :
  queue s = [] → dequeue s = emit EvFinish (end_ s).
Proof. intros Hq. unfold dequeue. by rewrite Hq. Qed.

(** The loop of [start] has stopped when its fuel is the queue length. *)
Lemma start_loop_fuel c (n : nat) s :
  size s ≤ n → shouldRun c (start_loop c n s) = false.
Proof.
  revert s. induction n as [|n IH]; intros s Hn; simpl.
  - unfold shouldRun, isEmpty. replace (size s) with 0 by lia.
    by rewrite andb_false_r.
  - destruct (shouldRun c s) eqn:Hrun; [|done].
    apply IH. unfold shouldRun, isEmpty, size in *.
    destruct (queue s) as [|promise rest] eqn:Hq.
    + by rewrite andb_false_r in Hrun.
    + rewrite (dequeue_cons s promise rest Hq). simpl in *. lia.
Qed.

Lemma start_loop_enough_fuel c s :
  shouldRun c (start_loop c (size s) s) = false.
Proof. by apply start_loop_fuel. Qed.

(** The loop of [attemptEmit] has stopped when its fuel is the number of
    stored outcomes. *)
Lemma drain_fuel_enough (n : nat) s :
  drain_fuel s ≤ n →
  resolveObject (drain n s) !! completed (drain n s) = None ∧
  rejectObject (drain n s) !! completed (drain n s) = None.
Proof.
  revert s. induction n as [|n IH]; intros s Hn; simpl.
  - unfold drain_fuel in Hn.
    assert (resolveObject s = ∅) as -> by (apply map_size_empty_inv; lia).
    assert (rejectObject s = ∅) as -> by (apply map_size_empty_inv; lia).
    by rewrite !lookup_empty.
  - destruct (resolveObject s !! completed s) as [r|] eqn:Hres.
    + apply IH. unfold drain_fuel in *. simpl.
      rewrite map_size_delete_Some by eauto.
      assert (base.size (resolveObject s) ≠ 0)
        by (intros Hz%map_size_empty_inv; by rewrite Hz, lookup_empty in Hres).
      lia.
    + destruct (rejectObject s !! completed s) as [e|] eqn:Hrej; [|done].
      apply IH. unfold drain_fuel in *. simpl.
      rewrite map_size_delete_Some by eauto.
      assert (base.size (rejectObject s) ≠ 0)
        by (intros Hz%map_size_empty_inv; by rewrite Hz, lookup_empty in Hrej).
      lia.
Qed.

Lemma drain_enough_fuel s :
  let s' := drain (drain_fuel s) s in
  resolveObject s' !! completed s' = None ∧
  rejectObject s' !! completed s' = None.
Proof. by apply drain_fuel_enough. Qed.

Lemma run_app c s (ls1 ls2 : list Label) :
  run c s (ls1 ++ ls2) = run c s ls1 ≫= λ s', run c s' ls2.
Proof.
  revert s. induction ls1 as [|l ls1 IH]; intros s; simpl; [done|].
  destruct (step c s l); [apply IH|done].
Qed.

(** With auto-start off, [enqueue] only appends. *)
Lemma enqueue_many_stopped c (promise : F) (n : nat) s :
  startOnAdd s = false →
  ∃ s', run c s (replicate n (CallEnqueue promise)) = Some s' ∧
        startOnAdd s' = false ∧
        queue s' = queue s ++ replicate n promise ∧
        runningCount s' = runningCount s.
Proof.
  revert s. induction n as [|n IH]; intros s Hoff; simpl.
  - exists s. by rewrite app_nil_r.
  - unfold enqueue. simpl. rewrite Hoff, andb_false_r.
    match goal with
    | |- context [run c ?s1 _] =>
        destruct (IH s1) as (s' & Hrun & Hoff' & Hq & Hcount); [done|]
    end.
    exists s'. split; [exact Hrun|]. split; [done|]. split; [|done].
    rewrite Hq. simpl. by rewrite <-app_assoc.
Qed.

(** [n] direct calls of [dequeue] on a queue of at least [n] entries start
    [n] tasks. *)
Lemma dequeue_many c (n : nat) s :
  n ≤ length (queue s) →
  ∃ s', run c s (replicate n CallDequeue) = Some s' ∧
        runningCount s' = (runningCount s + Z.of_nat n)%Z ∧
        queue s' = drop n (queue s).
Proof.
  revert s. induction n as [|n IH]; intros s Hn; simpl.
  - exists s. split; [done|]. split; [lia|done].
  - destruct (queue s) as [|promise rest] eqn:Hq; simpl in Hn; [lia|].
    rewrite (dequeue_cons s promise rest Hq).
    match goal with
    | |- context [run c ?s1 _] =>
        destruct (IH s1) as (s' & Hrun & Hcount & Hq'); [simpl; lia|]
    end.
    exists s'. split; [exact Hrun|]. simpl in *. split; [lia|done].
Qed.

Lemma direct_dequeue_exceeds (options : option QueueOptions) (promise : F) :
  ∃ (ls : list Label) s,
    Forall is_call ls ∧
    run (constructor options).1 (constructor options).2 ls = Some s ∧
    (concurrent (constructor options).1 < runningCount s)%Z.
Proof.
  set (c := (constructor options).1).
  set (k := S (Z.to_nat (concurrent c))).
  destruct (enqueue_many_stopped c promise k (stop (constructor options).2))
    as (s1 & Hrun1 & _ & Hq1 & Hcount1); [done|].
  destruct (dequeue_many c k s1) as (s2 & Hrun2 & Hcount2 & _).
  { rewrite Hq1, length_app, length_replicate. lia. }
  exists (CallStop :: replicate k (CallEnqueue promise) ++ replicate k CallDequeue), s2.
  split; [|split].
  - constructor; [done|]. apply Forall_app. split; by apply Forall_replicate.
  - change (run c (stop (constructor options).2)
              (replicate k (CallEnqueue promise) ++ replicate k CallDequeue)
            = Some s2).
    rewrite run_app, Hrun1. exact Hrun2.
  - rewrite Hcount2, Hcount1.
    change (runningCount (stop (constructor options).2)) with 0%Z.
    subst k. lia.
Qed.

(** ** Direct calls of [dequeue] *)

(** C9: on a non-empty pending queue, [dequeue()] shifts the head entry,
    gives it the next sequence number and increments the in-flight count; it
    does so also when the in-flight count has reached the concurrency limit
    (where [shouldRun] is false), and from a newly constructed queue public
    calls alone reach an in-flight count above the limit. *)
Theorem dequeue_ignores_admission c s (promise : F) (rest : list F) :
  queue s = promise :: rest →
  let inputInfo := mkInputInfo (index s) (now s) promise in
  queue (dequeue s) = rest ∧
  index (dequeue s) = S (index s) ∧
  runningCount (dequeue s) = (runningCount s + 1)%Z ∧
  trace (dequeue s) = trace s ++ [EvDequeue inputInfo] ∧
  pending (dequeue s) = pending s ++ [AwaitTask inputInfo 0] ∧
  ((concurrent c ≤ runningCount s)%Z →
   shouldRun c s = false ∧ (concurrent c < runningCount (dequeue s))%Z) ∧
  (∀ options : option QueueOptions,
     ∃ (ls : list Label) s',
       Forall is_call ls ∧
       run (constructor options).1 (constructor options).2 ls = Some s' ∧
       (concurrent (constructor options).1 < runningCount s')%Z).
Proof.
  intros Hq inputInfo. rewrite (dequeue_cons s promise rest Hq). simpl.
  repeat split; try done.
  - unfold shouldRun. apply andb_false_intro1. lia.
  - lia.
  - intros options. by apply direct_dequeue_exceeds.
Qed.

(** ** [clear] *)

(** C5 (amended): [clear()] empties the pending queue and both outcome
    objects and zeroes the sequence number, the completion cursor, the
    in-flight count and the running state, so that [size] is 0 and [isEmpty]
    is true.  It leaves the auto-start flag as it is (and the suspended
    frames, the clock and the log).  The next [enqueue] then does what it
    does on a newly constructed queue whose auto-start flag has that value:
    the same fields result and the same notifications are emitted, a
    dequeued task getting sequence number 0. *)
Theorem clear_resets c s :
  queue (clear s) = [] ∧
  resolveObject (clear s) = ∅ ∧
  rejectObject (clear s) = ∅ ∧
  index (clear s) = 0 ∧
  completed (clear s) = 0 ∧
  runningCount (clear s) = 0%Z ∧
  isRunning (clear s) = false ∧
  size (clear s) = 0 ∧
  isEmpty (clear s) = true ∧
  startOnAdd (clear s) = startOnAdd s ∧
  pending (clear s) = pending s ∧
  trace (clear s) = trace s ∧
  ∀ promise : F,
    let new := set_now (now s) (fresh (startOnAdd s)) in
    class_fields (enqueue c promise (clear s)) =
      class_fields (enqueue c promise new) ∧
    trace (enqueue c promise (clear s)) =
      trace s ++ trace (enqueue c promise new) ∧
    pending (enqueue c promise (clear s)) =
      pending s ++ pending (enqueue c promise new) ∧
    trace (enqueue c promise new) =
      EvEnqueue (mkQueueItem 0 promise) ::
      if (0 <? concurrent c)%Z && startOnAdd s
      then [EvStart; EvDequeue (mkInputInfo 0 (now s) promise)]
      else [].
Proof.
  repeat split; try done;
    unfold enqueue, start, class_fields, shouldRun, isEmpty, size, clear, fresh;
    simpl;
    destruct (0 <? concurrent c)%Z eqn:Hc, (startOnAdd s) eqn:Hs; simpl;
    unfold shouldRun, isEmpty, size; simpl; rewrite ?Hc; simpl;
    by rewrite <-?app_assoc, ?Hs, ?app_nil_r.
Qed.

(** ** Rejections: [fail], [rejectAndContinue], [attemptRetry] *)

Lemma js_index_nat (a : list Z) (i : nat) : js_index a (Z.of_nat i) = a !! i.
Proof.
  unfold js_index. destruct (Z.of_nat i <? 0)%Z eqn:Hi; [apply Z.ltb_lt in Hi; lia|].
  by rewrite Nat2Z.id.
Qed.

Lemma js_index_last (a : list Z) :
  js_index a (Z.of_nat (length a) - 1) = last a.
Proof.
  destruct a as [|x a]; [done|].
  replace (Z.of_nat (length (x :: a)) - 1)%Z with (Z.of_nat (length a))
    by (simpl; lia).
  by rewrite js_index_nat, last_lookup.
Qed.

Lemma retryIn_wait_duration c (override : option Z) (retryCount : nat) :
  retryIn c override retryCount = wait_duration c override retryCount.
Proof.
  unfold retryIn, wait_duration. destruct override as [ms|]; [done|]. simpl.
  rewrite js_index_nat, js_index_last.
  destruct (retryCount <? length (retryIntervals c)) eqn:Hlt.
  - apply Nat.ltb_lt, lookup_lt_is_Some in Hlt. by destruct Hlt as [ms ->].
  - apply Nat.ltb_ge, lookup_ge_None in Hlt. by rewrite Hlt.
Qed.

Lemma fail_started err s :
  started s = true →
  fail err s = set_trace (trace s ++ [EvFail err; EvEnd]) (set_isRunning false s).
Proof.
  unfold fail, end_, started, emit. intros Hs. rewrite Hs. simpl. rewrite Hs.
  unfold set_trace, set_isRunning. simpl. by rewrite <-app_assoc.
Qed.

Lemma fail_not_started err s : started s = false → fail err s = s.
Proof. unfold fail. by intros ->. Qed.

Lemma attemptRetry_attempts c (override : option Z) (retryCount : nat) err
    inputInfo s :
  attempts_left c retryCount = true →
  attemptRetry c override retryCount err inputInfo s =
    set_pending
      (pending s ++
         [AwaitRetrySleep
            (now s + Z.max 0 (default 0%Z (retryIn c override retryCount)))%Z
            inputInfo retryCount])
      (set_trace
         (trace s ++
            [EvPrepareRetry err (retryIn c override retryCount) inputInfo])
         s).
Proof. unfold attemptRetry, attempts_left. by intros ->. Qed.

Lemma attemptRetry_exhausted c (override : option Z) (retryCount : nat) err
    inputInfo s :
  attempts_left c retryCount = false →
  attemptRetry c override retryCount err inputInfo s =
    match onRejection c with
    | RETRY_THEN_THROW => fail err s
    | _ => rejectAndContinue err inputInfo s
    end.
Proof. unfold attemptRetry, attempts_left. by intros ->. Qed.

Lemma handleRejection_retries c err inputInfo (retryCount : nat) s :
  retry_capable c →
  default true (retry <$> shouldRetry c err) = true →
  handleRejection c err inputInfo retryCount s =
    attemptRetry c (shouldRetry c err ≫= rd_interval) retryCount err inputInfo s.
Proof. unfold handleRejection. by intros [-> | ->] ->. Qed.

Lemma rejectAndContinue_effect err inputInfo s :
  let s' := rejectAndContinue err inputInfo s in
  trace s' = trace s ++ reject_events err inputInfo s ∧
  rejectObject s' = <[ii_index inputInfo := err]> (rejectObject s) ∧
  resolveObject s' = resolveObject s ∧
  completed s' = completed s ∧
  queue s' = tail (queue s) ∧
  runningCount s' =
    (match queue s with _ :: _ => runningCount s | [] => runningCount s - 1 end)%Z ∧
  pending s' =
    pending s ++
    match queue s with
    | promise :: _ => [AwaitTask (mkInputInfo (index s) (now s) promise) 0]
    | [] => []
    end ∧
  index s' = (match queue s with _ :: _ => S (index s) | [] => index s end) ∧
  isRunning s' = (match queue s with _ :: _ => isRunning s | [] => false end).
Proof.
  unfold rejectAndContinue, reject_events, dequeue, end_, started. simpl.
  destruct (queue s) as [|promise rest] eqn:Hq; simpl.
  - destruct (isRunning s) eqn:Hrun; simpl;
      rewrite <-?app_assoc, ?app_nil_r, ?Hq; repeat split; try done; lia.
  - rewrite <-?app_assoc. repeat split; try done; lia.
Qed.

(** *** Resuming a suspended frame *)

Lemma step_settle_rejected c s (i : nat) inputInfo (retryCount : nat) err :
  pending s !! i = Some (AwaitTask inputInfo retryCount) →
  step c s (Settle i (inr err)) =
    Some (handleRejection c err inputInfo retryCount
            (set_pending (delete i (pending s)) s)).
Proof. simpl. by intros ->. Qed.

Lemma step_settle_fulfilled c s (i : nat) inputInfo (retryCount : nat) (res : T) :
  pending s !! i = Some (AwaitTask inputInfo retryCount) →
  step c s (Settle i (inl res)) =
    Some (attemptEmit c res inputInfo (set_pending (delete i (pending s)) s)).
Proof. simpl. by intros ->. Qed.

Lemma step_wake_retry c s (i : nat) (wake : Z) inputInfo (retryCount : nat) :
  pending s !! i = Some (AwaitRetrySleep wake inputInfo retryCount) →
  (wake ≤ now s)%Z →
  step c s (Wake i) =
    Some (attemptRetry_resume inputInfo retryCount
            (set_pending (delete i (pending s)) s)).
Proof.
  simpl. intros -> Hdue. by destruct (Z.leb_spec wake (now s)); [|lia].
Qed.

Lemma step_wake_pacing c s (i : nat) (wake : Z) :
  pending s !! i = Some (AwaitPacing wake) →
  (wake ≤ now s)%Z →
  step c s (Wake i) =
    Some (continue_resume (set_pending (delete i (pending s)) s)).
Proof.
  simpl. intros -> Hdue. by destruct (Z.leb_spec wake (now s)); [|lia].
Qed.

Lemma step_tick c s (dt : Z) :
  (0 ≤ dt)%Z → step c s (Tick dt) = Some (set_now (now s + dt)%Z s).
Proof. simpl. intros Hdt. by destruct (Z.leb_spec 0 dt); [|lia]. Qed.

(** *** A task that keeps failing *)

Lemma retry_round_run c err inputInfo (ks : list Cont) (attempt : nat) s :
  retry_capable c →
  retries_plainly c err →
  attempts_left c attempt = true →
  pending s = ks ++ [AwaitTask inputInfo attempt] →
  ∃ s',
    run c s (retry_round c err (length ks) attempt) = Some s' ∧
    pending s' = ks ++ [AwaitTask inputInfo (S attempt)] ∧
    trace s' =
      trace s ++
      [EvPrepareRetry err (wait_duration c None attempt) inputInfo;
       EvRetry inputInfo] ∧
    runningCount s' = runningCount s.
Proof.
  intros Hcap [Hretry Hplain] Hleft Hpend.
  unfold retry_round, run.
  rewrite (step_settle_rejected c s (length ks) inputInfo attempt err)
    by (rewrite Hpend; by apply list_lookup_middle).
  rewrite Hpend, delete_middle, app_nil_r.
  rewrite handleRejection_retries, Hplain by done.
  rewrite attemptRetry_attempts, retryIn_wait_duration by done.
  simpl pending. simpl trace.
  set (d := Z.max 0 (default 0%Z (wait_duration c None attempt))).
  rewrite step_tick by lia.
  match goal with
  | |- context [step c ?s1 (Wake _)] =>
      rewrite (step_wake_retry c s1 (length ks) (now s + d) inputInfo attempt)
        by (simpl; first [by apply list_lookup_middle | lia])
  end.
  eexists. split; [done|]. simpl. rewrite delete_middle, app_nil_r.
  by rewrite <-app_assoc.
Qed.

Lemma retry_rounds_run c err inputInfo (ks : list Cont) (n attempt : nat) s :
  retry_capable c →
  retries_plainly c err →
  alwaysRetry c = true →
  pending s = ks ++ [AwaitTask inputInfo attempt] →
  ∃ s',
    run c s (retry_rounds c err (length ks) attempt n) = Some s' ∧
    pending s' = ks ++ [AwaitTask inputInfo (attempt + n)] ∧
    trace s' = trace s ++ retry_events c err inputInfo attempt n ∧
    runningCount s' = runningCount s.
Proof.
  intros Hcap Hplain Halways. revert attempt s.
  induction n as [|n IH]; intros attempt s Hpend; cbn [retry_rounds retry_events].
  - exists s. by rewrite Nat.add_0_r, app_nil_r.
  - destruct (retry_round_run c err inputInfo ks attempt s)
      as (s1 & Hrun1 & Hpend1 & Htrace1 & Hcount1); try done.
    { unfold attempts_left. by rewrite Halways. }
    destruct (IH (S attempt) s1 Hpend1) as (s2 & Hrun2 & Hpend2 & Htrace2 & Hcount2).
    exists s2. rewrite run_app, Hrun1. split; [exact Hrun2|].
    rewrite Hpend2, Htrace2, Htrace1, Hcount2, Hcount1, <-app_assoc.
    by replace (attempt + S n) with (S attempt + n) by lia.
Qed.

(** ** The retry controller *)


(** C6: when a retry is attempted, the wait announced by [prepareRetry] and
    slept through is the override interval if the predicate gave one, else
    the ladder entry at the attempt count, else the last ladder entry; the
    last case arises only with always-retry set.  With always-retry set a
    task that keeps failing is retried any number of times, the waits beyond
    the ladder all being its last entry. *)
Theorem retry_wait_duration c s err inputInfo (override : option Z)
    (retryCount : nat) :
  attempts_left c retryCount = true →
  let wait := retryIn c override retryCount in
  wait = wait_duration c override retryCount ∧
  trace (attemptRetry c override retryCount err inputInfo s) =
    trace s ++ [EvPrepareRetry err wait inputInfo] ∧
  pending (attemptRetry c override retryCount err inputInfo s) =
    pending s ++
    [AwaitRetrySleep (now s + Z.max 0 (default 0%Z wait))%Z inputInfo retryCount] ∧
  (∀ ms : Z, override = Some ms → wait = Some ms) ∧
  (override = None → retryCount < length (retryIntervals c) →
   wait = retryIntervals c !! retryCount ∧ is_Some wait) ∧
  (override = None → length (retryIntervals c) ≤ retryCount →
   alwaysRetry c = true ∧ wait = last (retryIntervals c)) ∧
  (alwaysRetry c = true → retry_capable c → retries_plainly c err →
   ∀ (ks : list Cont) (n : nat) s0,
     pending s0 = ks ++ [AwaitTask inputInfo retryCount] →
     ∃ s',
       run c s0 (retry_rounds c err (length ks) retryCount n) = Some s' ∧
       pending s' = ks ++ [AwaitTask inputInfo (retryCount + n)] ∧
       trace s' = trace s0 ++ retry_events c err inputInfo retryCount n ∧
       ∀ attempt : nat, length (retryIntervals c) ≤ attempt →
         wait_duration c None attempt = last (retryIntervals c)).
Proof.
  intros Hleft wait. subst wait.
  rewrite attemptRetry_attempts, retryIn_wait_duration by done.
  split; [done|]. split; [done|]. split; [done|].
  split; [by intros ms ->|].
  split.
  { intros -> Hlt. unfold wait_duration.
    destruct (Nat.ltb_spec retryCount (length (retryIntervals c))); [|lia].
    split; [done|]. by apply lookup_lt_is_Some. }
  split.
  { intros -> Hge. unfold wait_duration, attempts_left in *.
    destruct (Nat.ltb_spec retryCount (length (retryIntervals c))); [lia|].
    by rewrite orb_false_r in Hleft. }
  intros Halways Hcap Hplain ks n s0 Hpend.
  destruct (retry_rounds_run c err inputInfo ks n retryCount s0)
    as (s' & Hrun & Hpend' & Htrace & _); try done.
  exists s'. split; [done|]. split; [done|]. split; [done|].
  intros attempt Hge. unfold wait_duration.
  by destruct (Nat.ltb_spec attempt (length (retryIntervals c))); [lia|].
Qed.

(** C10: a queue constructed with an empty backoff ladder and always-retry
    set computes an undefined wait on every failure that a retry-capable
    policy decides to retry without an override interval: the ladder lookup
    at the attempt count and the lookup at [length - 1] are both out of
    range, and [prepareRetry] is emitted with that undefined wait. *)
Theorem empty_ladder_absent_wait (options : QueueOptions) s err inputInfo
    (retryCount : nat) :
  opt_retryIntervals options = Some [] →
  opt_alwaysRetry options = Some true →
  let c := (constructor (Some options)).1 in
  retry_capable c →
  retries_plainly c err →
  retryIntervals c = [] ∧
  alwaysRetry c = true ∧
  js_index (retryIntervals c) (Z.of_nat retryCount) = None ∧
  js_index (retryIntervals c) (Z.of_nat (length (retryIntervals c)) - 1) = None ∧
  retryIn c None retryCount = None ∧
  trace (handleRejection c err inputInfo retryCount s) =
    trace s ++ [EvPrepareRetry err None inputInfo] ∧
  pending (handleRejection c err inputInfo retryCount s) =
    pending s ++ [AwaitRetrySleep (now s) inputInfo retryCount].
Proof.
  intros Hladder Halways c Hcap [Hretry Hplain].
  assert (retryIntervals c = []) as Hnil by (subst c; simpl; by rewrite Hladder).
  assert (alwaysRetry c = true) as Hal by (subst c; simpl; by rewrite Halways).
  assert (retryIn c None retryCount = None) as Hwait
    by (unfold retryIn; by rewrite Hnil, js_index_nat).
  rewrite handleRejection_retries, Hplain by done.
  rewrite attemptRetry_attempts by (unfold attempts_left; by rewrite Hal).
  rewrite Hwait, Hnil. simpl. rewrite Z.add_0_r. by rewrite js_index_nat.
Qed.

(** ** Terminal outcomes *)

(** C3 (amended): with always-retry off, once the attempt count has reached
    the ladder length a failure under a retry-capable policy is not retried,
    whatever the predicate answers.  Under retry-then-fail a running queue
    halts: [fail] then [end] are emitted and nothing else changes; a queue
    that is not running is left as it is, without a notification.  Under
    retry-then-ignore [reject] is emitted, the rejection is recorded at the
    task's sequence number, the slot is given back and [dequeue] runs: it
    starts the next pending task in that slot, or reports the queue
    finished. *)
Theorem exhausted_retries_terminal c s err inputInfo (retryCount : nat) :
  alwaysRetry c = false →
  length (retryIntervals c) ≤ retryCount →
  let s' := handleRejection c err inputInfo retryCount s in
  (onRejection c = RETRY_THEN_THROW →
   s' =
     if started s
     then set_trace (trace s ++ [EvFail err; EvEnd]) (set_isRunning false s)
     else s) ∧
  (onRejection c = RETRY_THEN_IGNORE →
   s' =
     dequeue
       (set_runningCount (runningCount s - 1)%Z
          (set_rejectObject (<[ii_index inputInfo := err]> (rejectObject s))
             (emit (EvReject err inputInfo) s))) ∧
   trace s' = trace s ++ reject_events err inputInfo s ∧
   rejectObject s' = <[ii_index inputInfo := err]> (rejectObject s) ∧
   match queue s with
   | promise :: rest =>
       queue s' = rest ∧
       runningCount s' = runningCount s ∧
       pending s' =
         pending s ++ [AwaitTask (mkInputInfo (index s) (now s) promise) 0]
   | [] =>
       runningCount s' = (runningCount s - 1)%Z ∧
       pending s' = pending s ∧
       isRunning s' = false
   end).
Proof.
  intros Halways Hlen s'.
  assert (attempts_left c retryCount = false) as Hleft.
  { unfold attempts_left. rewrite Halways. simpl.
    by destruct (Nat.ltb_spec retryCount (length (retryIntervals c))); [lia|]. }
  split.
  - intros Hpolicy. subst s'. unfold handleRejection.
    rewrite Hpolicy, attemptRetry_exhausted, Hpolicy by done.
    destruct (started s) eqn:Hstarted;
      rewrite ?fail_started, ?fail_not_started by done;
      by destruct (default true _).
  - intros Hpolicy.
    assert (s' = rejectAndContinue err inputInfo s) as ->.
    { subst s'. unfold handleRejection.
      rewrite Hpolicy, attemptRetry_exhausted, Hpolicy by done.
      by destruct (default true _). }
    split; [done|].
    destruct (rejectAndContinue_effect err inputInfo s)
      as (Htrace & Hrej & _ & _ & Hq & Hcount & Hpend & _ & Hrun).
    split; [done|]. split; [done|].
    by destruct (queue s); rewrite ?app_nil_r in Hpend.
Qed.

(** ** What a fulfilled task changes *)

(** The drain loop touches the two outcome objects, the cursor and the log,
    where it adds [resolve] notifications only. *)
Lemma drain_frame (n : nat) s :
  startOnAdd (drain n s) = startOnAdd s ∧
  runningCount (drain n s) = runningCount s ∧
  queue (drain n s) = queue s ∧
  index (drain n s) = index s ∧
  isRunning (drain n s) = isRunning s ∧
  now (drain n s) = now s ∧
  pending (drain n s) = pending s ∧
  ∃ new, trace (drain n s) = trace s ++ new ∧ Forall is_resolve new.
Proof.
  revert s. induction n as [|n IH]; intros s; simpl.
  - repeat split; try done. exists []. by rewrite app_nil_r.
  - destruct (resolveObject s !! completed s) as [r|].
    + match goal with
      | |- context [drain n ?s1] =>
          destruct (IH s1) as (-> & -> & -> & -> & -> & -> & -> & new & -> & Hnew)
      end.
      repeat split; try done. exists (EvResolve r.1 r.2 :: new).
      simpl. rewrite <-app_assoc. split; [done|]. by constructor.
    + destruct (rejectObject s !! completed s) as [e|].
      * match goal with
        | |- context [drain n ?s1] =>
            destruct (IH s1) as (-> & -> & -> & -> & -> & -> & -> & new & -> & Hnew)
        end.
        repeat split; try done. by exists new.
      * repeat split; try done. exists []. by rewrite app_nil_r.
Qed.

Lemma attemptEmit_frame c (res : T) inputInfo s :
  let s' := attemptEmit c res inputInfo s in
  startOnAdd s' = startOnAdd s ∧
  runningCount s' = (runningCount s - 1)%Z ∧
  queue s' = queue s ∧
  index s' = index s ∧
  isRunning s' = isRunning s ∧
  now s' = now s ∧
  pending s' =
    pending s ++
    [AwaitPacing
       (now s + Z.max 0 (ii_startTime inputInfo + interval c - now s))%Z] ∧
  ∃ new, trace s' = trace s ++ new ∧ Forall is_resolve new.
Proof.
  unfold attemptEmit, continue. destruct (guaranteeOrder c); simpl.
  - match goal with
    | |- context [drain ?n ?s1] =>
        destruct (drain_frame n s1)
          as (-> & -> & -> & -> & -> & -> & -> & new & -> & Hnew)
    end.
    repeat split; try done. by exists new.
  - repeat split; try done. exists [EvResolve res inputInfo].
    split; [done|]. by repeat constructor.
Qed.

(** ** Failures and their notifications *)

Lemma handleRejection_trace c err inputInfo (retryCount : nat) s :
  trace (handleRejection c err inputInfo retryCount s) =
    trace s ++ failure_events c err inputInfo retryCount s.
Proof.
  unfold handleRejection, failure_events, will_retry, fatal, attemptRetry,
    attempts_left.
  destruct (onRejection c), (default true (retry <$> shouldRetry c err));
    simpl;
    try destruct (alwaysRetry c || (retryCount <? length (retryIntervals c)));
    simpl; try done;
    try (by apply rejectAndContinue_effect);
    destruct (started s) eqn:Hs;
    rewrite ?fail_started, ?fail_not_started, ?app_nil_r by done; done.
Qed.

(** C8 (amended): a task failure gives rise to at most one [reject] or [fail]
    notification, as the first thing emitted: exactly one [reject] when its
    outcome is the non-fatal one, exactly one [fail] when its outcome is the
    fatal one and the queue is running.  A failure that is retried emits
    [prepareRetry] instead, and a failure whose outcome is fatal while the
    queue is not running emits nothing and changes nothing. *)
Theorem failure_notifications c s err inputInfo (retryCount : nat) :
  let s' := handleRejection c err inputInfo retryCount s in
  let new := failure_events c err inputInfo retryCount s in
  trace s' = trace s ++ new ∧
  List.filter surfaces new =
    (if will_retry c err retryCount then []
     else if fatal c then (if started s then [EvFail err] else [])
     else [EvReject err inputInfo]) ∧
  List.filter surfaces (tail new) = [] ∧
  (if negb (will_retry c err retryCount) && fatal c && negb (started s)
   then s' = s else new ≠ []).
Proof.
  intros s' new. split; [apply handleRejection_trace|].
  subst s' new. unfold failure_events, reject_events.
  destruct (will_retry c err retryCount) eqn:Hretry; simpl; [done|].
  destruct (fatal c) eqn:Hfatal; simpl.
  - destruct (started s) eqn:Hstarted; simpl; [done|].
    repeat split; try done.
    unfold handleRejection, will_retry, fatal, attemptRetry, attempts_left in *.
    destruct (onRejection c); try done;
      rewrite ?fail_not_started by done; try done.
    destruct (default true _); simpl in *; rewrite ?Hretry;
      by rewrite ?fail_not_started.
  - destruct (queue s), (started s); done.
Qed.

(** ** Fail-fast *)

(** Under fail-fast a halted queue stays halted and dequeues nothing, until a
    call restarts it. *)
Lemma halted_step c s (l : Label) s' :
  onRejection c = THROW →
  isRunning s = false →
  ¬ restarts l →
  step c s l = Some s' →
  isRunning s' = false ∧
  ∃ new, trace s' = trace s ++ new ∧ Forall (λ ev, ¬ is_dequeue_event ev) new.
Proof.
  intros Hpolicy Hhalted Hl Hstep.
  destruct l as [promise| | | | |dt|i [res|err]|i]; simpl in Hl, Hstep;
    try done.
  - (* stop *)
    injection Hstep as <-. unfold stop, end_, started. simpl. rewrite Hhalted.
    split; [done|]. exists [EvStop]. split; [done|]. by repeat constructor.
  - (* clear *)
    injection Hstep as <-. split; [done|]. exists []. by rewrite app_nil_r.
  - (* time passes *)
    destruct (0 <=? dt)%Z; [|done]. injection Hstep as <-.
    split; [done|]. exists []. by rewrite app_nil_r.
  - (* a task is fulfilled *)
    destruct (pending s !! i) as [[inputInfo retryCount| |]|]; try done.
    injection Hstep as <-.
    match goal with
    | |- context [attemptEmit c res inputInfo ?s1] =>
        destruct (attemptEmit_frame c res inputInfo s1)
          as (_ & _ & _ & _ & -> & _ & _ & new & -> & Hnew)
    end.
    split; [done|]. exists new. split; [done|].
    eapply Forall_impl; [exact Hnew|]. by intros [].
  - (* a task is rejected *)
    destruct (pending s !! i) as [[inputInfo retryCount| |]|]; try done.
    injection Hstep as <-. unfold handleRejection. rewrite Hpolicy.
    rewrite fail_not_started by done.
    split; [done|]. exists []. by rewrite app_nil_r.
  - (* a timer fires *)
    destruct (pending s !! i) as [[|wake inputInfo retryCount|wake]|]; try done;
      destruct (wake <=? now s)%Z; try done; injection Hstep as <-.
    + split; [done|]. exists [EvRetry inputInfo]. split; [done|].
      by repeat constructor.
    + unfold continue_resume, started. simpl. rewrite Hhalted.
      split; [done|]. exists []. by rewrite app_nil_r.
Qed.

Lemma halted_run c (ls : list Label) s s' :
  onRejection c = THROW →
  isRunning s = false →
  Forall (λ l, ¬ restarts l) ls →
  run c s ls = Some s' →
  isRunning s' = false ∧
  ∃ new, trace s' = trace s ++ new ∧ Forall (λ ev, ¬ is_dequeue_event ev) new.
Proof.
  intros Hpolicy. revert s.
  induction ls as [|l ls IH]; intros s Hhalted Hls Hrun; simpl in Hrun.
  - injection Hrun as <-. split; [done|]. exists []. by rewrite app_nil_r.
  - apply Forall_cons in Hls as [Hl Hls].
    destruct (step c s l) as [s1|] eqn:Hstep; [|done].
    destruct (halted_step c s l s1) as (Hhalted1 & new1 & Htrace1 & Hnew1);
      try done.
    destruct (IH s1) as (Hhalted' & new & Htrace & Hnew); try done.
    split; [done|]. exists (new1 ++ new).
    rewrite Htrace, Htrace1, <-app_assoc. split; [done|]. by apply Forall_app.
Qed.

(** C7 (amended): under the fail-fast policy a task failure that arrives
    while the queue is running halts it: [fail] is emitted with the error,
    then [end], and the running state becomes false.  A failure that arrives
    while the queue is not running emits nothing.  Either way, as long as no
    call restarts the queue, whatever settles or wakes up afterwards, no
    [dequeue] notification is emitted and the queue stays halted. *)
Theorem fail_fast_halts c s (i : nat) inputInfo (retryCount : nat) err :
  onRejection c = THROW →
  pending s !! i = Some (AwaitTask inputInfo retryCount) →
  ∃ s',
    step c s (Settle i (inr err)) = Some s' ∧
    isRunning s' = false ∧
    trace s' = trace s ++ (if started s then [EvFail err; EvEnd] else []) ∧
    ∀ (ls : list Label) s'',
      Forall (λ l, ¬ restarts l) ls →
      run c s' ls = Some s'' →
      isRunning s'' = false ∧
      ∃ new,
        trace s'' = trace s' ++ new ∧
        Forall (λ ev, ¬ is_dequeue_event ev) new.
Proof.
  intros Hpolicy Hpend.
  eexists. split; [by apply step_settle_rejected|].
  unfold handleRejection. rewrite Hpolicy.
  match goal with
  | |- context [fail err ?s1] =>
      assert (isRunning (fail err s1) = false ∧
              trace (fail err s1) =
                trace s ++ (if started s then [EvFail err; EvEnd] else []))
        as [Hhalted Htrace]
  end.
  { destruct (started s) eqn:Hstarted.
    - by rewrite fail_started.
    - rewrite fail_not_started by done. simpl. by rewrite app_nil_r. }
  split; [done|]. split; [done|].
  intros ls s'' Hls Hrun. by apply (halted_run c ls _ s'' Hpolicy Hhalted).
Qed.

(** ** The in-flight count *)

Lemma guarded_Forall c (ok : Label → Prop) (ls : list Label) s :
  Forall ok ls → guarded c (λ _, ok) s ls.
Proof.
  intros Hls. revert s. induction Hls as [|l ls Hl Hls IH]; intros s; simpl;
    [done|].
  split; [done|]. by destruct (step c s l).
Qed.

Lemma run_invariant c (P : Queue → Prop) (ok : Queue → Label → Prop) :
  (∀ s (l : Label) s', ok s l → step c s l = Some s' → P s → P s') →
  ∀ (ls : list Label) s s',
    guarded c ok s ls → run c s ls = Some s' → P s → P s'.
Proof.
  intros Hstep ls. induction ls as [|l ls IH]; intros s s' Hls Hrun HP;
    simpl in Hrun, Hls.
  - by injection Hrun as <-.
  - destruct Hls as [Hl Hls].
    destruct (step c s l) as [s1|] eqn:Hs1; [|done].
    apply (IH s1); [done..|]. by apply (Hstep s l).
Qed.

Lemma count_snoc (p : Cont → bool) (ks : list Cont) (k : Cont) :
  count p (ks ++ [k]) = count p ks + (if p k then 1 else 0).
Proof.
  unfold count. rewrite List.filter_app, length_app. simpl.
  by destruct (p k).
Qed.

Lemma count_delete (p : Cont → bool) (ks : list Cont) (i : nat) (k : Cont) :
  ks !! i = Some k →
  count p ks = count p (delete i ks) + (if p k then 1 else 0).
Proof.
  revert i. induction ks as [|k' ks IH]; intros i Hi; [done|].
  destruct i as [|i]; simpl in Hi.
  - injection Hi as ->. unfold count. simpl. destruct (p k); simpl; lia.
  - specialize (IH i Hi). unfold count in *. simpl.
    destruct (p k'); simpl; lia.
Qed.

Lemma end_frame s :
  runningCount (end_ s) = runningCount s ∧ pending (end_ s) = pending s.
Proof. unfold end_. by destruct (started s). Qed.

Lemma dequeue_counts s :
  pacing_waits (dequeue s) = pacing_waits s ∧
  (runningCount (dequeue s) - task_frames (dequeue s) =
     runningCount s - task_frames s)%Z ∧
  (runningCount s ≤ runningCount (dequeue s) ≤ runningCount s + 1)%Z.
Proof.
  unfold pacing_waits, task_frames.
  destruct (queue s) as [|promise rest] eqn:Hq.
  - rewrite (dequeue_nil s Hq). simpl.
    destruct (end_frame s) as [-> ->]. lia.
  - rewrite (dequeue_cons s promise rest Hq). simpl.
    rewrite !count_snoc. simpl. lia.
Qed.

Lemma start_loop_counts c (n : nat) s :
  pacing_waits (start_loop c n s) = pacing_waits s ∧
  (runningCount (start_loop c n s) - task_frames (start_loop c n s) =
     runningCount s - task_frames s)%Z ∧
  (runningCount s ≤ runningCount (start_loop c n s)
     ≤ Z.max (runningCount s) (concurrent c))%Z.
Proof.
  revert s. induction n as [|n IH]; intros s; simpl; [lia|].
  destruct (shouldRun c s) eqn:Hrun; [|lia].
  unfold shouldRun in Hrun. apply andb_true_iff in Hrun as [Hlt%Z.ltb_lt _].
  specialize (IH (dequeue s)). pose proof (dequeue_counts s). lia.
Qed.

Lemma start_counts c s :
  pacing_waits (start c s) = pacing_waits s ∧
  (runningCount (start c s) - task_frames (start c s) =
     runningCount s - task_frames s)%Z ∧
  (runningCount s ≤ runningCount (start c s)
     ≤ Z.max (runningCount s) (concurrent c))%Z.
Proof.
  unfold start.
  match goal with
  | |- context [start_loop c ?n ?s1] => exact (start_loop_counts c n s1)
  end.
Qed.

Lemma enqueue_counts c (promise : F) s :
  pacing_waits (enqueue c promise s) = pacing_waits s ∧
  (runningCount (enqueue c promise s) - task_frames (enqueue c promise s) =
     runningCount s - task_frames s)%Z ∧
  (runningCount s ≤ runningCount (enqueue c promise s)
     ≤ Z.max (runningCount s) (concurrent c))%Z.
Proof.
  unfold enqueue.
  match goal with |- context [if ?b then _ else _] => destruct b end.
  - match goal with
    | |- context [start c ?s1] => exact (start_counts c s1)
    end.
  - unfold pacing_waits, task_frames. simpl. lia.
Qed.

Lemma stop_counts s :
  pacing_waits (stop s) = pacing_waits s ∧
  task_frames (stop s) = task_frames s ∧
  runningCount (stop s) = runningCount s.
Proof.
  unfold stop, pacing_waits, task_frames.
  match goal with
  | |- context [end_ ?s1] => destruct (end_frame s1) as [-> ->]
  end.
  done.
Qed.

Lemma attemptEmit_counts c (res : T) inputInfo s :
  pacing_waits (attemptEmit c res inputInfo s) = (pacing_waits s + 1)%Z ∧
  task_frames (attemptEmit c res inputInfo s) = task_frames s ∧
  runningCount (attemptEmit c res inputInfo s) = (runningCount s - 1)%Z.
Proof.
  destruct (attemptEmit_frame c res inputInfo s)
    as (_ & Hcount & _ & _ & _ & _ & Hpend & _).
  unfold pacing_waits, task_frames. rewrite Hpend, Hcount, !count_snoc.
  simpl. lia.
Qed.

Lemma rejectAndContinue_counts err inputInfo s :
  pacing_waits (rejectAndContinue err inputInfo s) = pacing_waits s ∧
  (runningCount (rejectAndContinue err inputInfo s)
     - task_frames (rejectAndContinue err inputInfo s) =
   runningCount s - 1 - task_frames s)%Z ∧
  (runningCount (rejectAndContinue err inputInfo s) ≤ runningCount s)%Z.
Proof.
  destruct (rejectAndContinue_effect err inputInfo s)
    as (_ & _ & _ & _ & _ & Hcount & Hpend & _).
  unfold pacing_waits, task_frames. rewrite Hpend, Hcount.
  destruct (queue s); rewrite ?app_nil_r, ?count_snoc; simpl; lia.
Qed.

Lemma fail_counts err s :
  pacing_waits (fail err s) = pacing_waits s ∧
  task_frames (fail err s) = task_frames s ∧
  runningCount (fail err s) = runningCount s.
Proof.
  destruct (started s) eqn:Hs;
    by rewrite ?fail_started, ?fail_not_started by done.
Qed.

(** A rejection never raises the in-flight count, and gives back at most the
    slot of the frame that was resumed. *)
Lemma handleRejection_counts c err inputInfo (retryCount : nat) s :
  pacing_waits (handleRejection c err inputInfo retryCount s) = pacing_waits s ∧
  (runningCount s - 1 - task_frames s ≤
   runningCount (handleRejection c err inputInfo retryCount s)
     - task_frames (handleRejection c err inputInfo retryCount s))%Z ∧
  (runningCount (handleRejection c err inputInfo retryCount s)
     ≤ runningCount s)%Z.
Proof.
  pose proof (fail_counts err s).
  pose proof (rejectAndContinue_counts err inputInfo s).
  assert (∀ override : option Z,
    let s' := attemptRetry c override retryCount err inputInfo s in
    pacing_waits s' = pacing_waits s ∧
    (runningCount s - 1 - task_frames s ≤ runningCount s' - task_frames s')%Z ∧
    (runningCount s' ≤ runningCount s)%Z) as Hretry.
  { intros override. simpl.
    destruct (attempts_left c retryCount) eqn:Hleft.
    - rewrite attemptRetry_attempts by done.
      unfold pacing_waits, task_frames. simpl. rewrite !count_snoc. simpl. lia.
    - rewrite attemptRetry_exhausted by done. destruct (onRejection c); lia. }
  unfold handleRejection.
  destruct (onRejection c); try lia;
    destruct (default true _); try lia; apply Hretry.
Qed.

Lemma pacing_waits_nonneg s : (0 ≤ pacing_waits s)%Z.
Proof. unfold pacing_waits. lia. Qed.

(** Slots taken and slots being paced together stay within the limit. *)
Lemma step_upper c s (l : Label) s' :
  undisturbed s l →
  step c s l = Some s' →
  (runningCount s + pacing_waits s ≤ concurrent c)%Z →
  (runningCount s' + pacing_waits s' ≤ concurrent c)%Z.
Proof.
  intros Hl Hstep Hinv. pose proof (pacing_waits_nonneg s).
  destruct l as [promise| | | | |dt|i [res|err]|i]; simpl in Hl, Hstep;
    try done.
  - injection Hstep as <-. pose proof (enqueue_counts c promise s). lia.
  - injection Hstep as <-. pose proof (start_counts c s). lia.
  - injection Hstep as <-. pose proof (stop_counts s). lia.
  - destruct (0 <=? dt)%Z; [|done]. by injection Hstep as <-.
  - destruct (pending s !! i) as [[inputInfo retryCount| |]|] eqn:Hi; try done.
    injection Hstep as <-.
    match goal with
    | |- context [attemptEmit c res inputInfo ?s1] =>
        pose proof (attemptEmit_counts c res inputInfo s1) as (-> & _ & ->)
    end.
    pose proof (count_delete is_pacing _ _ _ Hi).
    unfold pacing_waits in *. simpl in *. lia.
  - destruct (pending s !! i) as [[inputInfo retryCount| |]|] eqn:Hi; try done.
    injection Hstep as <-.
    match goal with
    | |- context [handleRejection c err inputInfo retryCount ?s1] =>
        pose proof (handleRejection_counts c err inputInfo retryCount s1)
          as (-> & _ & ?)
    end.
    pose proof (count_delete is_pacing _ _ _ Hi).
    unfold pacing_waits in *. simpl in *. lia.
  - destruct (pending s !! i) as [[|wake inputInfo retryCount|wake]|] eqn:Hi;
      try done; destruct (wake <=? now s)%Z; try done; injection Hstep as <-;
      pose proof (count_delete is_pacing _ _ _ Hi).
    + unfold pacing_waits in *. simpl in *. rewrite count_snoc. simpl. lia.
    + unfold continue_resume.
      match goal with |- context [if ?b then _ else _] => destruct b end.
      * match goal with
        | |- context [dequeue ?s1] => pose proof (dequeue_counts s1)
        end.
        unfold pacing_waits in *. simpl in *. lia.
      * unfold pacing_waits in *. simpl in *. lia.
Qed.

(** The lower bound, as long as [clear] is not called. *)
Lemma step_lower c s (l : Label) s' :
  l ≠ CallClear →
  step c s l = Some s' →
  (task_frames s ≤ runningCount s)%Z →
  (task_frames s' ≤ runningCount s')%Z.
Proof.
  intros Hl Hstep Hinv.
  destruct l as [promise| | | | |dt|i [res|err]|i]; simpl in Hstep; try done.
  - injection Hstep as <-. pose proof (enqueue_counts c promise s). lia.
  - injection Hstep as <-. pose proof (start_counts c s). lia.
  - injection Hstep as <-. pose proof (stop_counts s). lia.
  - injection Hstep as <-. pose proof (dequeue_counts s). lia.
  - destruct (0 <=? dt)%Z; [|done]. by injection Hstep as <-.
  - destruct (pending s !! i) as [[inputInfo retryCount| |]|] eqn:Hi; try done.
    injection Hstep as <-.
    match goal with
    | |- context [attemptEmit c res inputInfo ?s1] =>
        pose proof (attemptEmit_counts c res inputInfo s1) as (_ & -> & ->)
    end.
    pose proof (count_delete is_task _ _ _ Hi).
    unfold task_frames in *. simpl in *. lia.
  - destruct (pending s !! i) as [[inputInfo retryCount| |]|] eqn:Hi; try done.
    injection Hstep as <-.
    match goal with
    | |- context [handleRejection c err inputInfo retryCount ?s1] =>
        pose proof (handleRejection_counts c err inputInfo retryCount s1)
          as (_ & ? & _)
    end.
    pose proof (count_delete is_task _ _ _ Hi).
    unfold task_frames in *. simpl in *. lia.
  - destruct (pending s !! i) as [[|wake inputInfo retryCount|wake]|] eqn:Hi;
      try done; destruct (wake <=? now s)%Z; try done; injection Hstep as <-;
      pose proof (count_delete is_task _ _ _ Hi).
    + unfold task_frames in *. simpl in *. rewrite count_snoc. simpl. lia.
    + unfold continue_resume.
      match goal with |- context [if ?b then _ else _] => destruct b end.
      * match goal with
        | |- context [dequeue ?s1] => pose proof (dequeue_counts s1)
        end.
        unfold task_frames in *. simpl in *. lia.
      * unfold task_frames in *. simpl in *. lia.
Qed.

(** C2 (amended): in every run of a newly constructed queue,
    - as long as [clear] is not called, the in-flight count is at least the
      number of suspended task frames, hence not negative;
    - as long as, moreover, [dequeue] is not called directly and [enqueue]
      and [start] are not called while a pacing wait is pending, the
      in-flight count plus the number of pending pacing waits is at most the
      concurrency limit (taken not negative), so the in-flight count lies
      between 0 and the limit. *)
Theorem runningCount_bounds (options : option QueueOptions) (ls : list Label) s :
  let c := (constructor options).1 in
  (0 ≤ concurrent c)%Z →
  run c (constructor options).2 ls = Some s →
  (Forall (λ l, l ≠ CallClear) ls →
   (0 ≤ task_frames s ≤ runningCount s)%Z) ∧
  (guarded c undisturbed (constructor options).2 ls →
   (runningCount s + pacing_waits s ≤ concurrent c)%Z ∧
   (0 ≤ runningCount s ≤ concurrent c)%Z).
Proof.
  intros c Hc Hrun.
  assert (Forall (λ l, l ≠ CallClear) ls → (task_frames s ≤ runningCount s)%Z)
    as Hlower.
  { intros Hls.
    apply (run_invariant c (λ s, (task_frames s ≤ runningCount s)%Z)
      (λ _ l, l ≠ CallClear) (step_lower c) ls (constructor options).2);
      [by apply guarded_Forall | done | done]. }
  split.
  - intros Hls. split; [unfold task_frames; lia | by apply Hlower].
  - intros Hls.
    assert (runningCount s + pacing_waits s ≤ concurrent c)%Z as Hupper.
    { apply (run_invariant c
        (λ s, (runningCount s + pacing_waits s ≤ concurrent c)%Z)
        undisturbed (step_upper c) ls (constructor options).2);
        [done | done |]. change (0 + 0 ≤ concurrent c)%Z. lia. }
    assert (guarded c (λ _ l, l ≠ CallClear) (constructor options).2 ls) as Hno.
    { clear -Hls. revert Hls. generalize (constructor options).2.
      induction ls as [|l ls IH]; intros s0; simpl; [done|].
      intros [Hl Hls]. split; [by destruct l|].
      destruct (step c s0 l); [by apply IH|done]. }
    assert (task_frames s ≤ runningCount s)%Z.
    { by apply (run_invariant c (λ s, (task_frames s ≤ runningCount s)%Z)
        (λ _ l, l ≠ CallClear) (step_lower c) ls (constructor options).2). }
    pose proof (pacing_waits_nonneg s). unfold task_frames in *. lia.
Qed.

(** ** The order of [resolve] notifications *)

Lemma live_delete (ks : list Cont) (i : nat) (k : Cont) :
  ks !! i = Some k →
  live ks ≡ₚ option_list (frame_index k) ++ live (delete i ks).
Proof.
  revert i. induction ks as [|k' ks IH]; intros i Hi; [done|].
  destruct i as [|i]; simpl in Hi.
  - injection Hi as ->. unfold live. simpl. by destruct (frame_index k).
  - specialize (IH i Hi). unfold live in *. simpl.
    destruct (frame_index k') as [n|]; simpl; [|done].
    rewrite IH. by rewrite Permutation_middle.
Qed.

Lemma ov_perm lv lv' res cmp idx rs rj :
  lv ≡ₚ lv' →
  order_view lv res cmp idx rs rj → order_view lv' res cmp idx rs rj.
Proof.
  intros Hperm [? ? ? Hnodup Hlive ? ? ?]. constructor; try done.
  - by rewrite <-Hperm.
  - intros k Hk. apply Hlive. by rewrite Hperm.
Qed.

(** The task with sequence number [k] is fulfilled: its value is stored. *)
Lemma ov_finish_resolve (k : nat) (v : T) inputInfo lv res cmp idx rs rj :
  ii_index inputInfo = k →
  order_view (k :: lv) res cmp idx rs rj →
  order_view lv (<[k := (v, inputInfo)]> res) cmp idx rs rj.
Proof.
  intros Hk [? ? Hkey Hnodup Hlive Hstored ? ?].
  apply NoDup_cons in Hnodup as [Hfresh Hnodup].
  destruct (Hlive k) as (? & ? & ? & ?); [by left|].
  constructor; try done.
  - intros k' r. rewrite lookup_insert. case_decide as Heq.
    + subst k'. by intros [= <-].
    + apply Hkey.
  - intros k' Hk'. destruct (Hlive k') as (? & ? & ? & ?); [by right|].
    rewrite lookup_insert_ne by (by intros ->). done.
  - intros k'. rewrite lookup_insert. case_decide as Heq.
    + by subst k'.
    + apply Hstored.
Qed.

(** The task with sequence number [k] is rejected for good. *)
Lemma ov_finish_reject (k : nat) lv res cmp idx rs rj :
  order_view (k :: lv) res cmp idx rs rj →
  order_view lv res cmp idx rs (rj ++ [k]).
Proof.
  intros [? ? ? Hnodup Hlive Hstored Hresolved Hrejected].
  apply NoDup_cons in Hnodup as [Hfresh Hnodup].
  destruct (Hlive k) as (? & Hnone & ? & ?); [by left|].
  constructor; try done.
  - intros k' Hk'. destruct (Hlive k') as (? & ? & ? & ?); [by right|].
    repeat split; try done.
    rewrite elem_of_app, list_elem_of_singleton. intros [?| ->]; done.
  - intros k' Hk'. destruct (Hstored k' Hk') as [? ?]. split; [done|].
    rewrite elem_of_app, list_elem_of_singleton. intros [?| ->]; [done|].
    rewrite Hnone in Hk'. by destruct Hk'.
  - intros k' Hk'. destruct (Hresolved k' Hk') as [? ?]. split; [done|].
    rewrite elem_of_app, list_elem_of_singleton. intros [?| ->]; done.
  - intros k'. rewrite elem_of_app, list_elem_of_singleton.
    intros [?| ->]; [by apply Hrejected|done].
Qed.

(** The task with sequence number [k] is given up without a record. *)
Lemma ov_drop (k : nat) lv res cmp idx rs rj :
  order_view (k :: lv) res cmp idx rs rj → order_view lv res cmp idx rs rj.
Proof.
  intros [? ? ? Hnodup Hlive ? ? ?].
  apply NoDup_cons in Hnodup as [Hfresh Hnodup].
  constructor; try done. intros k' Hk'. apply Hlive. by right.
Qed.

(** A task is dequeued: it gets the next sequence number. *)
Lemma ov_new lv res cmp idx rs rj :
  order_view lv res cmp idx rs rj →
  order_view (lv ++ [idx]) res cmp (S idx) rs rj.
Proof.
  intros [? ? ? Hnodup Hlive Hstored Hresolved Hrejected].
  constructor; try done.
  - apply NoDup_app. split; [done|]. split; [|apply NoDup_singleton].
    intros k Hk. rewrite list_elem_of_singleton. intros ->.
    destruct (Hlive idx Hk). lia.
  - intros k. rewrite elem_of_app, list_elem_of_singleton. intros [Hk| ->].
    + destruct (Hlive k Hk) as (? & ? & ? & ?). repeat split; try done. lia.
    + split; [lia|]. split; [|split].
      * destruct (res !! idx) eqn:Hres; [|done].
        destruct (Hstored idx) as [? _]; [by eexists|lia].
      * intros Hin. destruct (Hresolved idx Hin). lia.
      * intros Hin. specialize (Hrejected idx Hin). lia.
  - intros k Hk. destruct (Hstored k Hk). split; [lia|done].
  - intros k Hk. destruct (Hresolved k Hk). split; [lia|done].
  - intros k Hk. specialize (Hrejected k Hk). lia.
Qed.

(** A turn of the drain loop at a stored value. *)
Lemma ov_drain_resolve (r : T * InputInfo) lv res cmp idx rs rj :
  res !! cmp = Some r →
  order_view lv res cmp idx rs rj →
  order_view lv (delete cmp res) (S cmp) idx (rs ++ [ii_index r.2]) rj.
Proof.
  intros Hr [Hsorted Hbelow Hkey Hnodup Hlive Hstored Hresolved Hrejected].
  rewrite (Hkey cmp r Hr).
  constructor; try done.
  - apply StronglySorted_app. split; [|split; [done|]].
    + intros k1 k2 Hk1. rewrite list_elem_of_singleton. intros ->.
      by apply Hbelow.
    + repeat constructor.
  - intros k. rewrite elem_of_app, list_elem_of_singleton.
    intros [Hk| ->]; [specialize (Hbelow k Hk)|]; lia.
  - intros k r'. rewrite lookup_delete_Some. intros [_ ?]. by apply Hkey.
  - intros k Hk. destruct (Hlive k Hk) as (? & Hnone & ? & ?).
    repeat split; try done.
    + rewrite lookup_delete_None. by right.
    + rewrite elem_of_app, list_elem_of_singleton. intros [?| ->]; [done|].
      by rewrite Hr in Hnone.
  - intros k [r' [_ Hk]%lookup_delete_Some]. apply Hstored. by eexists.
  - intros k. rewrite elem_of_app, list_elem_of_singleton. intros [Hk| ->].
    + by apply Hresolved.
    + apply Hstored. by eexists.
Qed.

(** A turn of the drain loop at a recorded rejection. *)
Lemma ov_drain_reject lv res cmp idx rs rj :
  order_view lv res cmp idx rs rj → order_view lv res (S cmp) idx rs rj.
Proof.
  intros [? Hbelow ? ? ? ? ? ?]. constructor; try done.
  intros k Hk. specialize (Hbelow k Hk). lia.
Qed.

Lemma resolved_snoc (tr : list Event) (ev : Event) :
  resolved (tr ++ [ev]) = resolved tr ++ option_list (resolved_of ev).
Proof. unfold resolved. rewrite omap_app. simpl. by destruct (resolved_of ev). Qed.

Lemma rejected_snoc (tr : list Event) (ev : Event) :
  rejected (tr ++ [ev]) = rejected tr ++ option_list (rejected_of ev).
Proof. unfold rejected. rewrite omap_app. simpl. by destruct (rejected_of ev). Qed.

Lemma live_snoc (ks : list Cont) (k : Cont) :
  live (ks ++ [k]) = live ks ++ option_list (frame_index k).
Proof. unfold live. rewrite omap_app. simpl. by destruct (frame_index k). Qed.

Lemma order_inv_with_ext (extra : list nat) s s' :
  live (pending s') = live (pending s) →
  resolveObject s' = resolveObject s →
  completed s' = completed s →
  index s' = index s →
  resolved (trace s') = resolved (trace s) →
  rejected (trace s') = rejected (trace s) →
  order_inv_with extra s → order_inv_with extra s'.
Proof. unfold order_inv_with. by intros -> -> -> -> -> ->. Qed.

Lemma fresh_order_inv (autoStart : bool) : order_inv (fresh autoStart).
Proof.
  constructor; simpl; try done.
  - constructor.
  - intros k Hk. by apply elem_of_nil in Hk.
  - constructor.
  - intros k Hk. by apply elem_of_nil in Hk.
  - intros k [r Hk]. by rewrite lookup_empty in Hk.
  - intros k Hk. by apply elem_of_nil in Hk.
  - intros k Hk. by apply elem_of_nil in Hk.
Qed.

Lemma end_order_inv (extra : list nat) s :
  order_inv_with extra s → order_inv_with extra (end_ s).
Proof.
  unfold end_. destruct (started s); [|done].
  apply order_inv_with_ext; simpl; try done.
  - by rewrite resolved_snoc, app_nil_r.
  - by rewrite rejected_snoc, app_nil_r.
Qed.

Lemma fail_order_inv (extra : list nat) err s :
  order_inv_with extra s → order_inv_with extra (fail err s).
Proof.
  unfold fail. destruct (started s); [|done]. intros Hinv.
  apply end_order_inv. revert Hinv.
  apply order_inv_with_ext; simpl; try done.
  - by rewrite resolved_snoc, app_nil_r.
  - by rewrite rejected_snoc, app_nil_r.
Qed.

Lemma dequeue_order_inv s : order_inv s → order_inv (dequeue s).
Proof.
  intros Hinv. destruct (queue s) as [|promise rest] eqn:Hq.
  - rewrite (dequeue_nil s Hq).
    apply (order_inv_with_ext [] (end_ s)); simpl; try done.
    + by rewrite resolved_snoc, app_nil_r.
    + by rewrite rejected_snoc, app_nil_r.
    + by apply end_order_inv.
  - rewrite (dequeue_cons s promise rest Hq).
    unfold order_inv, order_inv_with. simpl.
    rewrite live_snoc, resolved_snoc, rejected_snoc. simpl.
    rewrite !app_nil_r. by apply ov_new.
Qed.

Lemma start_loop_order_inv c (n : nat) s :
  order_inv s → order_inv (start_loop c n s).
Proof.
  revert s. induction n as [|n IH]; intros s Hinv; simpl; [done|].
  destruct (shouldRun c s); [|done]. by apply IH, dequeue_order_inv.
Qed.

Lemma start_order_inv c s : order_inv s → order_inv (start c s).
Proof.
  intros Hinv. unfold start. apply start_loop_order_inv. revert Hinv.
  apply order_inv_with_ext; simpl; try done.
  - by rewrite resolved_snoc, app_nil_r.
  - by rewrite rejected_snoc, app_nil_r.
Qed.

Lemma enqueue_order_inv c (promise : F) s :
  order_inv s → order_inv (enqueue c promise s).
Proof.
  intros Hinv. unfold enqueue.
  assert (order_inv
    (emit (EvEnqueue (mkQueueItem (length (queue s ++ [promise]) - 1) promise))
       (set_queue (queue s ++ [promise]) s))) as Hinv'.
  { revert Hinv. apply order_inv_with_ext; simpl; try done.
    - by rewrite resolved_snoc, app_nil_r.
    - by rewrite rejected_snoc, app_nil_r. }
  simpl. match goal with |- context [if ?b then _ else _] => destruct b end;
    [by apply start_order_inv|done].
Qed.

Lemma stop_order_inv s : order_inv s → order_inv (stop s).
Proof.
  intros Hinv. unfold stop. apply end_order_inv. revert Hinv.
  apply order_inv_with_ext; simpl; try done.
  - by rewrite resolved_snoc, app_nil_r.
  - by rewrite rejected_snoc, app_nil_r.
Qed.

Lemma drain_order_inv (n : nat) s : order_inv s → order_inv (drain n s).
Proof.
  revert s. induction n as [|n IH]; intros s Hinv; simpl; [done|].
  destruct (resolveObject s !! completed s) as [r|] eqn:Hres.
  - apply IH. unfold order_inv, order_inv_with. simpl.
    rewrite resolved_snoc, rejected_snoc. simpl. rewrite app_nil_r.
    by apply ov_drain_resolve.
  - destruct (rejectObject s !! completed s) as [e|]; [|done].
    apply IH. unfold order_inv, order_inv_with. simpl.
    by apply ov_drain_reject.
Qed.

Lemma attemptEmit_order_inv c (res : T) inputInfo s :
  guaranteeOrder c = true →
  order_inv_with [ii_index inputInfo] s →
  order_inv (attemptEmit c res inputInfo s).
Proof.
  intros Hordered Hinv. unfold attemptEmit, continue. rewrite Hordered.
  match goal with
  | |- context [drain ?n ?s1] =>
      assert (order_inv (drain n s1)) as Hdrained
  end.
  { apply drain_order_inv. unfold order_inv, order_inv_with. simpl.
    by apply ov_finish_resolve. }
  revert Hdrained. apply order_inv_with_ext; simpl; try done.
  by rewrite live_snoc, app_nil_r.
Qed.

Lemma rejectAndContinue_order_inv err inputInfo s :
  order_inv_with [ii_index inputInfo] s →
  order_inv (rejectAndContinue err inputInfo s).
Proof.
  intros Hinv. unfold rejectAndContinue. apply dequeue_order_inv.
  unfold order_inv, order_inv_with. simpl.
  rewrite resolved_snoc, rejected_snoc. simpl. rewrite app_nil_r.
  by apply ov_finish_reject.
Qed.

Lemma attemptRetry_order_inv c (override : option Z) (retryCount : nat) err
    inputInfo s :
  order_inv_with [ii_index inputInfo] s →
  order_inv (attemptRetry c override retryCount err inputInfo s).
Proof.
  intros Hinv. destruct (attempts_left c retryCount) eqn:Hleft.
  - rewrite attemptRetry_attempts by done.
    unfold order_inv, order_inv_with. simpl.
    rewrite live_snoc, resolved_snoc, rejected_snoc. simpl.
    rewrite !app_nil_r. revert Hinv. apply ov_perm. simpl.
    by rewrite Permutation_cons_append.
  - rewrite attemptRetry_exhausted by done.
    destruct (onRejection c); try by apply rejectAndContinue_order_inv.
    apply fail_order_inv. unfold order_inv_with in *. simpl in *.
    by apply ov_drop in Hinv.
Qed.

Lemma handleRejection_order_inv c err inputInfo (retryCount : nat) s :
  order_inv_with [ii_index inputInfo] s →
  order_inv (handleRejection c err inputInfo retryCount s).
Proof.
  intros Hinv.
  assert (order_inv (fail err s)) as Hfail.
  { apply fail_order_inv. unfold order_inv_with in *. simpl in *.
    by apply ov_drop in Hinv. }
  unfold handleRejection.
  destruct (onRejection c); try done;
    try (by apply rejectAndContinue_order_inv);
    destruct (default true _); try done;
    try (by apply attemptRetry_order_inv);
    by apply rejectAndContinue_order_inv.
Qed.

(** Resuming the frame at position [i] takes it out of [pending]. *)
Lemma order_inv_resume (i : nat) (k : Cont) s :
  pending s !! i = Some k →
  order_inv s →
  order_inv_with (option_list (frame_index k))
    (set_pending (delete i (pending s)) s).
Proof.
  intros Hi. unfold order_inv, order_inv_with. simpl.
  apply ov_perm. by apply live_delete.
Qed.

Lemma step_order_inv c s (l : Label) s' :
  guaranteeOrder c = true →
  l ≠ CallClear →
  step c s l = Some s' →
  order_inv s → order_inv s'.
Proof.
  intros Hordered Hl Hstep Hinv.
  destruct l as [promise| | | | |dt|i [res|err]|i]; simpl in Hstep; try done.
  - injection Hstep as <-. by apply enqueue_order_inv.
  - injection Hstep as <-. by apply start_order_inv.
  - injection Hstep as <-. by apply stop_order_inv.
  - injection Hstep as <-. by apply dequeue_order_inv.
  - destruct (0 <=? dt)%Z; [|done]. by injection Hstep as <-.
  - destruct (pending s !! i) as [[inputInfo retryCount| |]|] eqn:Hi; try done.
    injection Hstep as <-. apply attemptEmit_order_inv; [done|].
    by apply (order_inv_resume i _ s Hi).
  - destruct (pending s !! i) as [[inputInfo retryCount| |]|] eqn:Hi; try done.
    injection Hstep as <-. apply handleRejection_order_inv.
    by apply (order_inv_resume i _ s Hi).
  - destruct (pending s !! i) as [[|wake inputInfo retryCount|wake]|] eqn:Hi;
      try done; destruct (wake <=? now s)%Z; try done; injection Hstep as <-;
      pose proof (order_inv_resume i _ s Hi Hinv) as Hinv'.
    + unfold attemptRetry_resume, order_inv, order_inv_with in *.
      simpl in *. rewrite live_snoc, resolved_snoc, rejected_snoc. simpl.
      rewrite !app_nil_r. revert Hinv'. apply ov_perm.
      by rewrite Permutation_cons_append.
    + unfold continue_resume.
      match goal with |- context [if ?b then _ else _] => destruct b end;
        [by apply dequeue_order_inv|done].
Qed.

(** *** Every resolved task was dequeued *)

Lemma resolved_resolved_infos (tr : list Event) :
  resolved tr = ii_index <$> resolved_infos tr.
Proof.
  unfold resolved, resolved_infos.
  induction tr as [|ev tr IH]; [done|].
  destruct ev; simpl; try exact IH. f_equal. exact IH.
Qed.

Lemma frames_delete (ks : list Cont) (i : nat) (k : Cont) :
  ks !! i = Some k →
  frames ks ≡ₚ option_list (frame_info k) ++ frames (delete i ks).
Proof.
  revert i. induction ks as [|k' ks IH]; intros i Hi; [done|].
  destruct i as [|i]; simpl in Hi.
  - injection Hi as ->. unfold frames. simpl. by destruct (frame_info k).
  - specialize (IH i Hi). unfold frames in *. simpl.
    destruct (frame_info k') as [n|]; simpl; [|done].
    rewrite IH. by rewrite Permutation_middle.
Qed.

Lemma dequeued_snoc (tr : list Event) (ev : Event) :
  dequeued (tr ++ [ev]) = dequeued tr ++ option_list (dequeued_of ev).
Proof. unfold dequeued. rewrite omap_app. simpl. by destruct (dequeued_of ev). Qed.

Lemma resolved_infos_snoc (tr : list Event) (ev : Event) :
  resolved_infos (tr ++ [ev]) =
    resolved_infos tr ++ option_list (resolved_info_of ev).
Proof.
  unfold resolved_infos. rewrite omap_app. simpl.
  by destruct (resolved_info_of ev).
Qed.

Lemma frames_snoc (ks : list Cont) (k : Cont) :
  frames (ks ++ [k]) = frames ks ++ option_list (frame_info k).
Proof. unfold frames. rewrite omap_app. simpl. by destruct (frame_info k). Qed.

Lemma av_perm fr fr' res idx dq rs :
  fr ≡ₚ fr' → announce_view fr res idx dq rs → announce_view fr' res idx dq rs.
Proof.
  intros Hperm [? Hframes ? ?]. constructor; try done.
  intros inputInfo Hin. apply Hframes. by rewrite Hperm.
Qed.

Lemma av_store (k : nat) (v : T) inputInfo fr res idx dq rs :
  announce_view (inputInfo :: fr) res idx dq rs →
  announce_view fr (<[k := (v, inputInfo)]> res) idx dq rs.
Proof.
  intros [? Hframes Hstored ?]. constructor; try done.
  - intros inputInfo' Hin. apply Hframes. by right.
  - intros k' r. rewrite lookup_insert. case_decide.
    + intros [= <-]. apply Hframes. by left.
    + apply Hstored.
Qed.

Lemma av_drop inputInfo fr res idx dq rs :
  announce_view (inputInfo :: fr) res idx dq rs → announce_view fr res idx dq rs.
Proof.
  intros [? Hframes ? ?]. constructor; try done.
  intros inputInfo' Hin. apply Hframes. by right.
Qed.

Lemma av_new inputInfo fr res idx dq rs :
  ii_index inputInfo = idx →
  announce_view fr res idx dq rs →
  announce_view (fr ++ [inputInfo]) res (S idx) (dq ++ [inputInfo]) rs.
Proof.
  intros Hidx [Hnumbered Hframes Hstored Hresolved]. constructor.
  - rewrite fmap_app, Hnumbered, seq_S. simpl. by rewrite Hidx.
  - intros inputInfo'. rewrite !elem_of_app, !list_elem_of_singleton.
    intros [Hin| ->]; [left; by apply Hframes | by right].
  - intros k r Hr. apply elem_of_app. left. by apply (Hstored k).
  - intros inputInfo' Hin. apply elem_of_app. left. by apply Hresolved.
Qed.

Lemma av_drain_resolve (cmp : nat) (r : T * InputInfo) fr res idx dq rs :
  res !! cmp = Some r →
  announce_view fr res idx dq rs →
  announce_view fr (delete cmp res) idx dq (rs ++ [r.2]).
Proof.
  intros Hr [? ? Hstored Hresolved]. constructor; try done.
  - intros k r'. rewrite lookup_delete_Some. intros [_ ?]. by apply (Hstored k).
  - intros inputInfo. rewrite elem_of_app, list_elem_of_singleton.
    intros [Hin| ->]; [by apply Hresolved | by apply (Hstored cmp)].
Qed.

Lemma announce_inv_with_ext (extra : list InputInfo) s s' :
  frames (pending s') = frames (pending s) →
  resolveObject s' = resolveObject s →
  index s' = index s →
  dequeued (trace s') = dequeued (trace s) →
  resolved_infos (trace s') = resolved_infos (trace s) →
  announce_inv_with extra s → announce_inv_with extra s'.
Proof. unfold announce_inv_with. by intros -> -> -> -> ->. Qed.

(** What a notification other than [dequeue] and [resolve] changes. *)
Lemma emit_announce_inv (extra : list InputInfo) (ev : Event) s :
  dequeued_of ev = None →
  resolved_info_of ev = None →
  announce_inv_with extra s → announce_inv_with extra (emit ev s).
Proof.
  intros Hdq Hrs. apply announce_inv_with_ext; simpl; try done.
  - by rewrite dequeued_snoc, Hdq, app_nil_r.
  - by rewrite resolved_infos_snoc, Hrs, app_nil_r.
Qed.

Lemma fresh_announce_inv (autoStart : bool) : announce_inv (fresh autoStart).
Proof.
  constructor; simpl; try done;
    intros inputInfo Hin; by apply elem_of_nil in Hin.
Qed.

Lemma end_announce_inv (extra : list InputInfo) s :
  announce_inv_with extra s → announce_inv_with extra (end_ s).
Proof.
  unfold end_. destruct (started s); [|done]. intros Hinv.
  by apply emit_announce_inv.
Qed.

Lemma fail_announce_inv (extra : list InputInfo) err s :
  announce_inv_with extra s → announce_inv_with extra (fail err s).
Proof.
  unfold fail. destruct (started s); [|done]. intros Hinv.
  by apply end_announce_inv, emit_announce_inv.
Qed.

Lemma dequeue_announce_inv s : announce_inv s → announce_inv (dequeue s).
Proof.
  intros Hinv. destruct (queue s) as [|promise rest] eqn:Hq.
  - rewrite (dequeue_nil s Hq). by apply emit_announce_inv, end_announce_inv.
  - rewrite (dequeue_cons s promise rest Hq).
    unfold announce_inv, announce_inv_with. simpl.
    rewrite frames_snoc, dequeued_snoc, resolved_infos_snoc. simpl.
    rewrite app_nil_r. by apply av_new.
Qed.

Lemma start_loop_announce_inv c (n : nat) s :
  announce_inv s → announce_inv (start_loop c n s).
Proof.
  revert s. induction n as [|n IH]; intros s Hinv; simpl; [done|].
  destruct (shouldRun c s); [|done]. by apply IH, dequeue_announce_inv.
Qed.

Lemma start_announce_inv c s : announce_inv s → announce_inv (start c s).
Proof.
  intros Hinv. unfold start.
  by apply start_loop_announce_inv, emit_announce_inv.
Qed.

Lemma enqueue_announce_inv c (promise : F) s :
  announce_inv s → announce_inv (enqueue c promise s).
Proof.
  intros Hinv. unfold enqueue.
  match goal with
  | |- context [if ?b then _ else _] =>
      destruct b; [apply start_announce_inv|]
  end;
    by apply emit_announce_inv.
Qed.

Lemma stop_announce_inv s : announce_inv s → announce_inv (stop s).
Proof.
  intros Hinv. unfold stop. by apply end_announce_inv, emit_announce_inv.
Qed.

Lemma drain_announce_inv (n : nat) s :
  announce_inv s → announce_inv (drain n s).
Proof.
  revert s. induction n as [|n IH]; intros s Hinv; simpl; [done|].
  destruct (resolveObject s !! completed s) as [r|] eqn:Hres.
  - apply IH. unfold announce_inv, announce_inv_with. simpl.
    rewrite dequeued_snoc, resolved_infos_snoc. simpl. rewrite app_nil_r.
    by apply av_drain_resolve.
  - destruct (rejectObject s !! completed s) as [e|]; [|done]. by apply IH.
Qed.

Lemma attemptEmit_announce_inv c (res : T) inputInfo s :
  guaranteeOrder c = true →
  announce_inv_with [inputInfo] s →
  announce_inv (attemptEmit c res inputInfo s).
Proof.
  intros Hordered Hinv. unfold attemptEmit, continue. rewrite Hordered.
  match goal with
  | |- context [drain ?n ?s1] =>
      assert (announce_inv (drain n s1)) as Hdrained
  end.
  { apply drain_announce_inv. unfold announce_inv, announce_inv_with. simpl.
    by apply av_store. }
  revert Hdrained. apply announce_inv_with_ext; simpl; try done.
  by rewrite frames_snoc, app_nil_r.
Qed.

Lemma rejectAndContinue_announce_inv err inputInfo s :
  announce_inv_with [inputInfo] s →
  announce_inv (rejectAndContinue err inputInfo s).
Proof.
  intros Hinv. unfold rejectAndContinue. apply dequeue_announce_inv.
  apply (announce_inv_with_ext [] (emit (EvReject err inputInfo) s));
    try done.
  apply emit_announce_inv; try done.
  unfold announce_inv_with in *. simpl in *. by apply av_drop in Hinv.
Qed.

Lemma attemptRetry_announce_inv c (override : option Z) (retryCount : nat) err
    inputInfo s :
  announce_inv_with [inputInfo] s →
  announce_inv (attemptRetry c override retryCount err inputInfo s).
Proof.
  intros Hinv. destruct (attempts_left c retryCount) eqn:Hleft.
  - rewrite attemptRetry_attempts by done.
    unfold announce_inv, announce_inv_with. simpl.
    rewrite frames_snoc, dequeued_snoc, resolved_infos_snoc. simpl.
    rewrite !app_nil_r. revert Hinv. apply av_perm. simpl.
    by rewrite Permutation_cons_append.
  - rewrite attemptRetry_exhausted by done.
    destruct (onRejection c); try by apply rejectAndContinue_announce_inv.
    apply fail_announce_inv. unfold announce_inv_with in *. simpl in *.
    by apply av_drop in Hinv.
Qed.

Lemma handleRejection_announce_inv c err inputInfo (retryCount : nat) s :
  announce_inv_with [inputInfo] s →
  announce_inv (handleRejection c err inputInfo retryCount s).
Proof.
  intros Hinv.
  assert (announce_inv (fail err s)) as Hfail.
  { apply fail_announce_inv. unfold announce_inv_with in *. simpl in *.
    by apply av_drop in Hinv. }
  unfold handleRejection.
  destruct (onRejection c); try done;
    try (by apply rejectAndContinue_announce_inv);
    destruct (default true _); try done;
    try (by apply attemptRetry_announce_inv);
    by apply rejectAndContinue_announce_inv.
Qed.

Lemma announce_inv_resume (i : nat) (k : Cont) s :
  pending s !! i = Some k →
  announce_inv s →
  announce_inv_with (option_list (frame_info k))
    (set_pending (delete i (pending s)) s).
Proof.
  intros Hi. unfold announce_inv, announce_inv_with. simpl.
  apply av_perm. by apply frames_delete.
Qed.

Lemma step_announce_inv c s (l : Label) s' :
  guaranteeOrder c = true →
  l ≠ CallClear →
  step c s l = Some s' →
  announce_inv s → announce_inv s'.
Proof.
  intros Hordered Hl Hstep Hinv.
  destruct l as [promise| | | | |dt|i [res|err]|i]; simpl in Hstep; try done.
  - injection Hstep as <-. by apply enqueue_announce_inv.
  - injection Hstep as <-. by apply start_announce_inv.
  - injection Hstep as <-. by apply stop_announce_inv.
  - injection Hstep as <-. by apply dequeue_announce_inv.
  - destruct (0 <=? dt)%Z; [|done]. by injection Hstep as <-.
  - destruct (pending s !! i) as [[inputInfo retryCount| |]|] eqn:Hi; try done.
    injection Hstep as <-. apply attemptEmit_announce_inv; [done|].
    by apply (announce_inv_resume i _ s Hi).
  - destruct (pending s !! i) as [[inputInfo retryCount| |]|] eqn:Hi; try done.
    injection Hstep as <-. apply handleRejection_announce_inv.
    by apply (announce_inv_resume i _ s Hi).
  - destruct (pending s !! i) as [[|wake inputInfo retryCount|wake]|] eqn:Hi;
      try done; destruct (wake <=? now s)%Z; try done; injection Hstep as <-;
      pose proof (announce_inv_resume i _ s Hi Hinv) as Hinv'.
    + unfold attemptRetry_resume, announce_inv, announce_inv_with in *.
      simpl in *. rewrite frames_snoc, dequeued_snoc, resolved_infos_snoc.
      simpl. rewrite !app_nil_r. revert Hinv'. apply av_perm.
      by rewrite Permutation_cons_append.
    + unfold continue_resume.
      match goal with |- context [if ?b then _ else _] => destruct b end;
        [by apply dequeue_announce_inv|done].
Qed.

(** ** Steps in closed form *)

(** *** [start] *)

Lemma dequeue_infos_cons (idx : nat) (t : Z) (promise : F) (fns : list F) :
  dequeue_infos idx t (promise :: fns) =
    mkInputInfo idx t promise :: dequeue_infos (S idx) t fns.
Proof.
  unfold dequeue_infos. simpl. rewrite Nat.add_0_r. f_equal.
  apply imap_ext. intros i x _. simpl. f_equal. lia.
Qed.

Lemma admitted_none c s : shouldRun c s = false → admitted c s = 0.
Proof.
  unfold shouldRun, isEmpty, admitted, free_slots.
  intros [Hfull%Z.ltb_ge|Hempty%negb_false_iff%Nat.eqb_eq]%andb_false_iff; lia.
Qed.

Lemma admitted_some c s :
  shouldRun c s = true →
  ∃ promise rest,
    queue s = promise :: rest ∧ admitted c s = S (admitted c (dequeue s)).
Proof.
  unfold shouldRun, isEmpty, admitted, free_slots, size.
  intros [Hfree%Z.ltb_lt Hsome%negb_true_iff%Nat.eqb_neq]%andb_true_iff.
  destruct (queue s) as [|promise rest] eqn:Hq; [done|].
  exists promise, rest. split; [done|].
  rewrite (dequeue_cons s promise rest Hq). cbn [queue runningCount length].
  lia.
Qed.

Lemma start_loop_spec c (n : nat) s :
  size s ≤ n →
  let k := admitted c s in
  let infos := dequeue_infos (index s) (now s) (take k (queue s)) in
  start_loop c n s =
    mkQueue (startOnAdd s) (runningCount s + Z.of_nat k)%Z (drop k (queue s))
      (resolveObject s) (rejectObject s) (index s + k) (completed s)
      (isRunning s) (now s)
      (pending s ++ ((λ inputInfo, AwaitTask inputInfo 0) <$> infos))
      (trace s ++ (EvDequeue <$> infos)).
Proof.
  revert s. induction n as [|n IH]; intros s Hn; cbv zeta.
  - rewrite admitted_none.
    + destruct s. simpl. by rewrite !app_nil_r, Z.add_0_r, Nat.add_0_r.
    + unfold shouldRun, isEmpty. replace (size s) with 0 by lia.
      apply andb_false_r.
  - cbn [start_loop]. destruct (shouldRun c s) eqn:Hrun.
    + destruct (admitted_some c s Hrun) as (promise & rest & Hq & ->).
      rewrite IH by (unfold size in *; rewrite Hq in Hn;
                     rewrite (dequeue_cons s promise rest Hq);
                     cbn [queue length] in *; lia).
      set (m := admitted c (dequeue s)).
      rewrite (dequeue_cons s promise rest Hq).
      cbn [startOnAdd runningCount queue resolveObject rejectObject index
           completed isRunning now pending trace].
      rewrite Hq.
      change (take (S m) (promise :: rest)) with (promise :: take m rest).
      change (drop (S m) (promise :: rest)) with (drop m rest).
      rewrite dequeue_infos_cons, !fmap_cons, <-!app_assoc.
      f_equal; lia.
    + rewrite admitted_none by done.
      destruct s. simpl. by rewrite !app_nil_r, Z.add_0_r, Nat.add_0_r.
Qed.

(** *** The other operations *)

Lemma end_cases s :
  end_ s =
    if started s
    then set_trace (trace s ++ [EvEnd]) (set_isRunning false s)
    else s.
Proof. reflexivity. Qed.

Lemma fail_cases err s :
  fail err s =
    if started s
    then set_trace (trace s ++ [EvFail err; EvEnd]) (set_isRunning false s)
    else s.
Proof.
  destruct (started s) eqn:Hs; [by apply fail_started|by apply fail_not_started].
Qed.

Lemma dequeue_empty s :
  queue s = [] →
  dequeue s =
    set_trace (trace s ++ (if started s then [EvEnd] else []) ++ [EvFinish])
      (set_isRunning false s).
Proof.
  intros Hq. rewrite (dequeue_nil s Hq), end_cases. unfold started, emit.
  destruct s as [? ? ? ? ? ? ? running ? ? ?]. simpl.
  destruct running; unfold set_trace, set_isRunning; simpl;
    by rewrite <-?app_assoc.
Qed.

Lemma rejectAndContinue_cases err inputInfo s :
  rejectAndContinue err inputInfo s =
    match queue s with
    | promise :: rest =>
        mkQueue (startOnAdd s) (runningCount s - 1 + 1)%Z rest (resolveObject s)
          (<[ii_index inputInfo := err]> (rejectObject s)) (S (index s))
          (completed s) (isRunning s) (now s)
          (pending s ++ [AwaitTask (mkInputInfo (index s) (now s) promise) 0])
          (trace s ++
             [EvReject err inputInfo;
              EvDequeue (mkInputInfo (index s) (now s) promise)])
    | [] =>
        mkQueue (startOnAdd s) (runningCount s - 1)%Z [] (resolveObject s)
          (<[ii_index inputInfo := err]> (rejectObject s)) (index s)
          (completed s) false (now s) (pending s)
          (trace s ++
             EvReject err inputInfo ::
             (if started s then [EvEnd] else []) ++ [EvFinish])
    end.
Proof.
  unfold rejectAndContinue.
  destruct (queue s) as [|promise rest] eqn:Hq.
  - rewrite dequeue_empty by done. unfold started. simpl.
    unfold set_trace, set_isRunning, set_runningCount, set_rejectObject, emit.
    simpl. by rewrite Hq, <-app_assoc.
  - match goal with
    | |- dequeue ?s1 = _ => rewrite (dequeue_cons s1 promise rest Hq)
    end.
    simpl. by rewrite <-app_assoc.
Qed.

Lemma handleRejection_cases c err inputInfo (retryCount : nat) s :
  handleRejection c err inputInfo retryCount s =
    if will_retry c err retryCount then
      let wait := retryIn c (shouldRetry c err ≫= rd_interval) retryCount in
      set_pending
        (pending s ++
           [AwaitRetrySleep (now s + Z.max 0 (default 0%Z wait))%Z inputInfo
              retryCount])
        (set_trace (trace s ++ [EvPrepareRetry err wait inputInfo]) s)
    else if fatal c then fail err s
    else rejectAndContinue err inputInfo s.
Proof.
  unfold handleRejection, will_retry, fatal.
  destruct (onRejection c) eqn:Hpolicy; try done;
    destruct (default true _); simpl; try done;
    destruct (attempts_left c retryCount) eqn:Hleft;
    rewrite ?attemptRetry_attempts, ?attemptRetry_exhausted, ?Hpolicy by done;
    done.
Qed.

Lemma start_spec c s :
  let k := admitted c s in
  let infos := dequeue_infos (index s) (now s) (take k (queue s)) in
  start c s =
    mkQueue true (runningCount s + Z.of_nat k)%Z (drop k (queue s))
      (resolveObject s) (rejectObject s) (index s + k) (completed s) true
      (now s)
      (pending s ++ ((λ inputInfo, AwaitTask inputInfo 0) <$> infos))
      (trace s ++ EvStart :: (EvDequeue <$> infos)).
Proof.
  cbv zeta. unfold start. rewrite start_loop_spec by done. simpl.
  by rewrite <-app_assoc.
Qed.

Lemma enqueue_cases c (promise : F) s :
  let s1 :=
    set_trace (trace s ++ [EvEnqueue (mkQueueItem (length (queue s)) promise)])
      (set_queue (queue s ++ [promise]) s) in
  enqueue c promise s =
    if shouldRun c s1 && startOnAdd s then start c s1 else s1.
Proof.
  cbv zeta. unfold enqueue, emit. simpl.
  by rewrite length_app, Nat.add_sub.
Qed.

(** What a fulfilled task leaves, apart from the bookkeeping of the order
    guarantee. *)
Lemma attemptEmit_cases c (res : T) inputInfo s :
  ∃ (new : list Event) (resolveObject' : gmap nat (T * InputInfo))
    (rejectObject' : gmap nat E) (completed' : nat),
    Forall is_resolve new ∧
    emit_result c res inputInfo s new resolveObject' rejectObject' completed' ∧
    attemptEmit c res inputInfo s =
      mkQueue (startOnAdd s) (runningCount s - 1)%Z (queue s) resolveObject'
        rejectObject' (index s) completed' (isRunning s) (now s)
        (pending s ++
           [AwaitPacing
              (now s + Z.max 0 (ii_startTime inputInfo + interval c - now s))%Z])
        (trace s ++ new).
Proof.
  destruct (attemptEmit_frame c res inputInfo s)
    as (H1 & H2 & H3 & H4 & H5 & H6 & H7 & new & H8 & Hnew).
  exists new, (resolveObject (attemptEmit c res inputInfo s)),
    (rejectObject (attemptEmit c res inputInfo s)),
    (completed (attemptEmit c res inputInfo s)).
  split; [done|]. split; [done|].
  destruct (attemptEmit c res inputInfo s). simpl in *. by subst.
Qed.

(** Brings the result of a step into closed form, case by case. *)
Ltac step_cases Hstep :=
  match type of Hstep with
  | step ?c ?s ?l = Some ?s' =>
      destruct l as [?promise| | | | |?dt|?i [?res|?err]|?i]; simpl in Hstep;
      [ injection Hstep as <-; rewrite enqueue_cases; cbv zeta;
        match goal with
        | |- context [if ?b then _ else _] => destruct b eqn:?
        end;
        [rewrite start_spec; cbv zeta|]
      | injection Hstep as <-; rewrite start_spec; cbv zeta
      | injection Hstep as <-; unfold stop; rewrite end_cases;
        unfold started, emit; simpl; destruct (isRunning s) eqn:?
      | injection Hstep as <-; unfold clear
      | injection Hstep as <-;
        let Hq := fresh "Hq" in
        destruct (queue s) as [|?promise ?rest] eqn:Hq;
        [ rewrite (dequeue_empty s Hq); destruct (started s) eqn:?
        | rewrite (dequeue_cons s _ _ Hq) ]
      | destruct (0 <=? dt)%Z; [injection Hstep as <-|discriminate Hstep]
      | let Hi := fresh "Hi" in
        destruct (pending s !! i) as [[?inputInfo ?retryCount| |]|] eqn:Hi;
        try discriminate Hstep;
        injection Hstep as <-;
        match goal with
        | |- context [attemptEmit c ?res ?inputInfo ?s1] =>
            let Hnew := fresh "Hnew" in
            destruct (attemptEmit_cases c res inputInfo s1)
              as (?new & ?resolveObject' & ?rejectObject' & ?completed' &
                  Hnew & ?Hemit & ->)
        end
      | let Hi := fresh "Hi" in
        destruct (pending s !! i) as [[?inputInfo ?retryCount| |]|] eqn:Hi;
        try discriminate Hstep;
        injection Hstep as <-;
        rewrite handleRejection_cases;
        destruct (will_retry c _ _) eqn:?; cbv zeta;
        [ | destruct (fatal c) eqn:?;
            [ rewrite fail_cases; unfold started; simpl;
              destruct (isRunning s) eqn:?
            | rewrite rejectAndContinue_cases; unfold started; simpl;
              let Hq := fresh "Hq" in
              destruct (queue s) as [|?promise ?rest] eqn:Hq;
              [destruct (isRunning s) eqn:?|] ] ]
      | let Hi := fresh "Hi" in
        destruct (pending s !! i)
          as [[|?wake ?inputInfo ?retryCount|?wake]|] eqn:Hi;
        try discriminate Hstep;
        destruct (wake <=? now s)%Z eqn:?; try discriminate Hstep;
        injection Hstep as <-;
        [ unfold attemptRetry_resume, emit, suspend; simpl
        | unfold continue_resume, started; simpl;
          destruct (isRunning s) eqn:?;
          [ let Hq := fresh "Hq" in
            destruct (queue s) as [|?promise ?rest] eqn:Hq;
            [ match goal with
              | |- context [dequeue ?s1] =>
                  rewrite (dequeue_empty s1 Hq); unfold started; simpl
              end
            | match goal with
              | |- context [dequeue ?s1] => rewrite (dequeue_cons s1 _ _ Hq)
              end ]
          | ] ] ]
  end.

Lemma omap_resolves {A : Type} (f : Event → option A) (new : list Event) :
  (∀ res inputInfo, f (EvResolve res inputInfo) = None) →
  Forall is_resolve new → omap f new = [].
Proof.
  intros Hf Hnew. induction Hnew as [|ev new Hev _ IH]; [done|].
  destruct ev; try done. simpl. by rewrite Hf.
Qed.

Lemma dequeued_dequeue_events (infos : list InputInfo) :
  omap dequeued_of (EvDequeue <$> infos : list Event) = infos.
Proof. induction infos as [|inputInfo infos IH]; [done|]. simpl. by f_equal. Qed.

Lemma omap_dequeue_events {A : Type} (f : Event → option A)
    (infos : list InputInfo) :
  (∀ inputInfo, f (EvDequeue inputInfo) = None) →
  omap f (EvDequeue <$> infos : list Event) = [].
Proof.
  intros Hf. induction infos as [|inputInfo infos IH]; [done|].
  simpl. by rewrite Hf.
Qed.

Lemma length_take_admitted c s :
  length (take (admitted c s) (queue s)) = admitted c s.
Proof. rewrite length_take. unfold admitted, size. lia. Qed.

Lemma dequeue_infos_fn (idx : nat) (t : Z) (fns : list F) :
  ii_fn <$> dequeue_infos idx t fns = fns.
Proof.
  revert idx. induction fns as [|promise fns IH]; intros idx; [done|].
  rewrite dequeue_infos_cons. simpl. by rewrite IH.
Qed.

Lemma dequeue_infos_index (idx : nat) (t : Z) (fns : list F) :
  ii_index <$> dequeue_infos idx t fns = seq idx (length fns).
Proof.
  revert idx. induction fns as [|promise fns IH]; intros idx; [done|].
  rewrite dequeue_infos_cons. simpl. by rewrite IH.
Qed.

Lemma omap_cons_eq {A B : Type} (f : A → option B) (x : A) (l : list A) :
  omap f (x :: l) = option_list (f x) ++ omap f l.
Proof. simpl. by destruct (f x). Qed.

Lemma omap_nil_eq {A B : Type} (f : A → option B) : omap f [] = [].
Proof. reflexivity. Qed.

(** Reads the fields of a state in closed form and splits the projections of
    its log along the events added. *)
Ltac norm_state :=
  cbn [startOnAdd runningCount queue resolveObject rejectObject index
       completed isRunning now pending trace
       set_startOnAdd set_runningCount set_queue set_resolveObject
       set_rejectObject set_index set_completed set_isRunning set_now
       set_pending set_trace] in *;
  repeat match goal with
         | H : isRunning ?s = _ |- context [isRunning ?s] => rewrite H
         | H : startOnAdd ?s = _ |- context [startOnAdd ?s] => rewrite H
         | H : queue ?s = _ |- context [queue ?s] => rewrite H
         end;
  rewrite ?omap_app, ?omap_cons_eq, ?omap_nil_eq in *;
  repeat match goal with
         | H : Forall is_resolve ?new |- context [omap ?f ?new] =>
             rewrite (omap_resolves f new (λ _ _, eq_refl) H)
         end;
  simpl (option_list _) in *;
  rewrite ?fmap_app, ?fmap_cons, ?fmap_nil, ?app_nil_r in *;
  cbn [app] in *.

Lemma elem_of_omap_delete {A B : Type} (f : A → option B) (l : list A)
    (i : nat) (y : B) :
  y ∈ omap f (delete i l) → y ∈ omap f l.
Proof.
  rewrite !list_elem_of_omap. intros (x & Hx & Hy). exists x.
  split; [|done]. apply (elem_of_sublist _ _ _ Hx), sublist_delete.
Qed.

Lemma elem_of_omap_lookup {A B : Type} (f : A → option B) (l : list A)
    (i : nat) (x : A) (y : B) :
  l !! i = Some x → f x = Some y → y ∈ omap f l.
Proof.
  intros Hx Hy. apply list_elem_of_omap. exists x.
  split; [by apply (list_elem_of_lookup_2 l i)|done].
Qed.

Lemma live_first_attempts (infos : list InputInfo) :
  omap frame_index ((λ inputInfo, AwaitTask inputInfo 0) <$> infos) =
    ii_index <$> infos.
Proof. induction infos as [|inputInfo infos IH]; [done|]. simpl. by f_equal. Qed.

(** ** Where the cursor stands *)

Lemma cv_drain_resolve (r : T * InputInfo) lv res (rej : gmap nat E) cmp idx
    rs rj :
  res !! cmp = Some r →
  order_view lv res cmp idx rs rj →
  cursor_view lv res rej cmp idx rs rj →
  cursor_view lv (delete cmp res) rej (S cmp) idx (rs ++ [ii_index r.2]) rj.
Proof.
  intros Hr [_ _ Hkey _ Hlive Hstored _ _]
    [Hpassed Hrecorded Hkept Hres Hlv Hbound].
  rewrite (Hkey cmp r Hr). constructor.
  - intros k Hk. rewrite elem_of_app, list_elem_of_singleton.
    destruct (decide (k = cmp)) as [->|]; [by left; right|].
    destruct (Hpassed k) as [?|?]; [lia|by left; left|by right].
  - done.
  - intros k Hk Hle. apply Hkept; [done|lia].
  - intros k [r' [Hne Hk]%lookup_delete_Some].
    assert (cmp ≤ k) by (apply Hres; by eexists). lia.
  - intros k Hk. specialize (Hlv k Hk).
    destruct (Hlive k Hk) as (_ & Hnone & _).
    assert (k ≠ cmp) by (intros ->; by rewrite Hr in Hnone). lia.
  - destruct (Hstored cmp) as [? _]; [by eexists|lia].
Qed.

Lemma cv_drain_reject (e : E) lv res (rej : gmap nat E) cmp idx rs rj :
  res !! cmp = None →
  rej !! cmp = Some e →
  order_view lv res cmp idx rs rj →
  cursor_view lv res rej cmp idx rs rj →
  cursor_view lv res (delete cmp rej) (S cmp) idx rs rj.
Proof.
  intros Hnone He [_ _ _ _ Hlive _ _ Hrejected]
    [Hpassed Hrecorded Hkept Hres Hlv Hbound].
  assert (cmp ∈ rj) as Hcmp by (apply Hrecorded; by eexists).
  constructor.
  - intros k Hk. destruct (decide (k = cmp)) as [->|]; [by right|].
    apply Hpassed. lia.
  - intros k [e' [_ Hk]%lookup_delete_Some]. apply Hrecorded. by eexists.
  - intros k Hk Hle. rewrite lookup_delete_ne by lia. apply Hkept; [done|lia].
  - intros k Hk. specialize (Hres k Hk).
    assert (k ≠ cmp)
      by (intros ->; destruct Hk as [? Hk]; by rewrite Hnone in Hk).
    lia.
  - intros k Hk. specialize (Hlv k Hk).
    destruct (Hlive k Hk) as (_ & _ & _ & Hfresh).
    assert (k ≠ cmp) by (by intros ->). lia.
  - specialize (Hrejected cmp Hcmp). lia.
Qed.

Lemma cv_finish_resolve (k : nat) (v : T) inputInfo lv res
    (rej : gmap nat E) cmp idx rs rj :
  cursor_view (k :: lv) res rej cmp idx rs rj →
  cursor_view lv (<[k := (v, inputInfo)]> res) rej cmp idx rs rj.
Proof.
  intros [Hpassed Hrecorded Hkept Hres Hlv Hbound]. constructor; try done.
  - intros k'. rewrite lookup_insert. case_decide as Heq.
    + subst k'. intros _. apply Hlv. by left.
    + apply Hres.
  - intros k' Hk'. apply Hlv. by right.
Qed.

Lemma drain_cursor_inv (n : nat) s :
  order_inv s → cursor_inv_with [] s → cursor_inv_with [] (drain n s).
Proof.
  revert s. induction n as [|n IH]; intros s Horder Hinv; simpl; [done|].
  destruct (resolveObject s !! completed s) as [r|] eqn:Hres.
  - apply IH.
    + unfold order_inv, order_inv_with. simpl.
      rewrite resolved_snoc, rejected_snoc. simpl. rewrite app_nil_r.
      by apply ov_drain_resolve.
    + unfold cursor_inv_with. simpl.
      rewrite resolved_snoc, rejected_snoc. simpl. rewrite app_nil_r.
      by apply cv_drain_resolve.
  - destruct (rejectObject s !! completed s) as [e|] eqn:Hrej; [|done].
    apply IH.
    + unfold order_inv, order_inv_with. simpl. by apply ov_drain_reject.
    + unfold cursor_inv_with. simpl. by apply (cv_drain_reject e).
Qed.

Lemma attemptEmit_cursor_inv c (res : T) inputInfo s :
  guaranteeOrder c = true →
  order_inv_with [ii_index inputInfo] s →
  cursor_inv_with [ii_index inputInfo] s →
  cursor_inv (attemptEmit c res inputInfo s).
Proof.
  intros Hordered Horder Hinv. unfold attemptEmit, continue.
  rewrite Hordered.
  match goal with
  | |- context [drain ?n ?s1] =>
      assert (cursor_inv_with [] (drain n s1)) as Hdrained;
      [|pose proof (drain_enough_fuel s1) as [Hgap _]]
  end.
  { apply drain_cursor_inv.
    - unfold order_inv, order_inv_with. simpl. by apply ov_finish_resolve.
    - unfold cursor_inv_with. simpl. by apply cv_finish_resolve. }
  split; [|exact Hgap].
  unfold cursor_inv_with in *. simpl in *.
  by rewrite live_snoc, app_nil_r.
Qed.

Lemma step_cursor_inv c s (l : Label) s' :
  guaranteeOrder c = true →
  l ≠ CallClear →
  step c s l = Some s' →
  order_inv s →
  cursor_inv s → cursor_inv s'.
Proof.
  intros Hordered Hl Hstep Horder Hinv.
  destruct (fulfilment l) as [v|] eqn:Hfulfilled.
  { destruct l as [| | | | | |i [res|err]|]; try done. simpl in Hstep.
    destruct (pending s !! i) as [[inputInfo retryCount| |]|] eqn:Hi;
      try done.
    injection Hstep as <-. apply attemptEmit_cursor_inv; [done|..].
    - by apply (order_inv_resume i _ s Hi).
    - destruct Hinv as [[Hpassed Hrecorded Hkept Hres Hlv Hbound] _].
      constructor; try done. simpl. intros k Hk. apply Hlv. simpl.
      apply elem_of_cons in Hk as [->|Hk].
      + by apply (elem_of_omap_lookup _ _ i (AwaitTask inputInfo retryCount)).
      + by apply (elem_of_omap_delete _ _ i). }
  destruct Hinv as [[Hpassed Hrecorded Hkept Hres Hlv Hbound] Hgap].
  simpl in Hlv. unfold cursor_inv, cursor_inv_with.
  unfold live, resolved, rejected in *.
  step_cases Hstep; try done;
    rewrite ?(omap_dequeue_events resolved_of),
      ?(omap_dequeue_events rejected_of) by done;
    norm_state;
    rewrite ?(omap_dequeue_events resolved_of),
      ?(omap_dequeue_events rejected_of),
      ?live_first_attempts, ?dequeue_infos_index, ?length_take_admitted
      by done;
    rewrite ?app_nil_r;
    (split; [constructor|]); try done; try lia.
  all: intros k;
    rewrite ?elem_of_app, ?list_elem_of_singleton, ?elem_of_seq,
      ?lookup_insert_is_Some;
    intros Hk.
  all: first
    [ destruct (Hpassed k Hk); by auto
    | destruct Hk as [<-|[_ Hk]]; [by right | left; by apply Hrecorded]
    | intros Hle; destruct (decide (ii_index inputInfo = k)) as [|Hne];
      [by left|right; split; [done|]];
      destruct Hk as [Hk|Hk]; [by apply Hkept|congruence]
    | repeat match goal with H : _ ∨ _ |- _ => destruct H as [H|H] end;
      try lia; subst;
      first
        [ by apply Hlv
        | apply Hlv; by apply elem_of_omap_delete in Hk
        | apply Hlv; by apply (elem_of_omap_lookup _ _ _ _ _ Hi) ] ].
Qed.

Lemma fresh_cursor_inv (autoStart : bool) : cursor_inv (fresh autoStart).
Proof.
  split; [|done]. constructor; simpl; try done.
  - intros k Hk. lia.
  - intros k [e Hk]. by rewrite lookup_empty in Hk.
  - intros k Hk. by apply elem_of_nil in Hk.
  - intros k [r Hk]. by rewrite lookup_empty in Hk.
  - intros k Hk. by apply elem_of_nil in Hk.
Qed.

(** ** The values delivered *)

Lemma resolved_resolutions (tr : list Event) :
  resolved tr = (resolutions tr).*1.
Proof.
  induction tr as [|ev tr IH]; [done|].
  unfold resolved, resolutions in *. destruct ev; simpl; try done.
  by f_equal.
Qed.

Lemma resolve_values_resolutions (tr : list Event) :
  resolve_values tr = (resolutions tr).*2.
Proof.
  induction tr as [|ev tr IH]; [done|].
  unfold resolve_values, resolutions in *. destruct ev; simpl; try done.
  by f_equal.
Qed.

Lemma resolutions_snoc (tr : list Event) (ev : Event) :
  resolutions (tr ++ [ev]) = resolutions tr ++ option_list (resolution_of ev).
Proof.
  unfold resolutions. rewrite omap_app. simpl. by destruct (resolution_of ev).
Qed.

(** A step that is neither a fulfilled task nor [clear] leaves the stored
    values and the [resolve] notifications as they are. *)
Lemma step_keeps_values c s (l : Label) s' :
  fulfilment l = None →
  l ≠ CallClear →
  step c s l = Some s' →
  resolveObject s' = resolveObject s ∧
  resolutions (trace s') = resolutions (trace s) ∧
  resolved (trace s') = resolved (trace s).
Proof.
  intros Hfulfilled Hl Hstep.
  step_cases Hstep; try done; unfold resolutions, resolved;
    rewrite ?(omap_dequeue_events resolution_of),
      ?(omap_dequeue_events resolved_of) by done;
    norm_state;
    rewrite ?(omap_dequeue_events resolution_of),
      ?(omap_dequeue_events resolved_of) by done;
    by rewrite ?app_nil_r.
Qed.

Lemma drain_values_inv (n : nat) (acc : list (nat * T)) s :
  (∀ k r, resolveObject s !! k = Some r → ii_index r.2 = k) →
  values_inv acc s → values_inv acc (drain n s).
Proof.
  revert s. induction n as [|n IH]; intros s Hkey Hinv; simpl; [done|].
  destruct (resolveObject s !! completed s) as [r|] eqn:Hres.
  - destruct Hinv as (Hout & Hin & Hall & Hnodup).
    apply IH; simpl.
    + intros k r' [_ Hk]%lookup_delete_Some. by apply Hkey.
    + unfold values_inv. simpl.
      rewrite resolutions_snoc, resolved_snoc. simpl.
      rewrite (Hkey _ _ Hres).
      split; [|split; [|split; [|done]]].
      * intros kv [Hkv|Hkv%list_elem_of_singleton]%elem_of_app;
          [by apply Hout|].
        subst kv. by apply Hin.
      * intros k r' [_ Hk]%lookup_delete_Some. by apply Hin.
      * intros k Hk. rewrite elem_of_app, list_elem_of_singleton.
        destruct (decide (k = completed s)) as [->|Hne]; [by right; right|].
        rewrite lookup_delete_ne by done.
        destruct (Hall k Hk) as [?|?]; [by left|by right; left].
  - destruct (rejectObject s !! completed s) as [e|] eqn:Hrej; [|done].
    by apply IH.
Qed.

Lemma attemptEmit_values_inv c (res : T) inputInfo (acc : list (nat * T)) s :
  guaranteeOrder c = true →
  (∀ k r, resolveObject s !! k = Some r → ii_index r.2 = k) →
  ii_index inputInfo ∉ acc.*1 →
  values_inv acc s →
  values_inv (acc ++ [(ii_index inputInfo, res)])
    (attemptEmit c res inputInfo s).
Proof.
  intros Hordered Hkey Hfresh (Hout & Hin & Hall & Hnodup).
  unfold attemptEmit, continue. rewrite Hordered.
  match goal with
  | |- context [drain ?n ?s1] =>
      assert (values_inv (acc ++ [(ii_index inputInfo, res)]) (drain n s1))
        as Hdrained; [apply drain_values_inv|done]
  end.
  - simpl. intros k r [[<- <-]|[_ Hk]]%lookup_insert_Some; [done|].
    by apply Hkey.
  - unfold values_inv. simpl. rewrite fmap_app. simpl.
    split; [|split; [|split]].
    + intros kv Hkv. apply elem_of_app. left. by apply Hout.
    + intros k r [[<- <-]|[_ Hk]]%lookup_insert_Some; apply elem_of_app.
      * right. by apply list_elem_of_singleton.
      * left. by apply Hin.
    + intros k [Hk|Hk%list_elem_of_singleton]%elem_of_app.
      * destruct (Hall k Hk) as [Hstored|?]; [left|by right].
        apply lookup_insert_is_Some.
        destruct (decide (ii_index inputInfo = k)); [by left|by right].
      * subst k. left. rewrite lookup_insert_eq. by eexists.
    + apply NoDup_app. split; [done|]. split; [|apply NoDup_singleton].
      intros k Hk ->%list_elem_of_singleton. done.
Qed.

Lemma step_values_inv c s (l : Label) s' (acc : list (nat * T)) :
  guaranteeOrder c = true →
  l ≠ CallClear →
  step c s l = Some s' →
  order_inv s →
  values_inv acc s →
  values_inv (acc ++ option_list (fulfilled_by s l)) s'.
Proof.
  intros Hordered Hl Hstep Horder Hinv.
  destruct (fulfilment l) as [v|] eqn:Hfulfilled.
  - destruct l as [| | | | | |i [res|err]|]; try done. simpl in Hstep |- *.
    destruct (pending s !! i) as [[inputInfo retryCount| |]|] eqn:Hi;
      try done.
    injection Hstep as <-. simpl.
    destruct Horder as [_ _ Hkey _ Hlive _ _ _].
    apply attemptEmit_values_inv; try done.
    destruct Hinv as (_ & _ & Hall & _). intros Hk.
    destruct (Hlive (ii_index inputInfo)) as (_ & Hnone & Hnot & _).
    { simpl. by apply (elem_of_omap_lookup _ _ i
                         (AwaitTask inputInfo retryCount)). }
    destruct (Hall _ Hk) as [[r Hr]|?]; [by rewrite Hnone in Hr|done].
  - assert (fulfilled_by s l = None) as ->.
    { destruct l as [| | | | | |i [res|err]|]; try done. }
    simpl. rewrite app_nil_r.
    destruct (step_keeps_values c s l s' Hfulfilled Hl Hstep)
      as (Hres & Hout & Hrs).
    unfold values_inv. by rewrite Hres, Hout, Hrs.
Qed.

Lemma run_values_inv c (ls : list Label) s s' (acc : list (nat * T)) :
  guaranteeOrder c = true →
  Forall (λ l, l ≠ CallClear) ls →
  run c s ls = Some s' →
  order_inv s →
  values_inv acc s →
  values_inv (acc ++ fulfilled c s ls) s'.
Proof.
  intros Hordered Hls. revert s acc.
  induction Hls as [|l ls Hl Hls IH]; intros s acc Hrun Horder Hinv;
    simpl in Hrun |- *.
  - injection Hrun as <-. by rewrite app_nil_r.
  - destruct (step c s l) as [s1|] eqn:Hstep; [|done].
    rewrite app_assoc. apply IH; [done|..].
    + by apply (step_order_inv c s l).
    + by apply (step_values_inv c s l).
Qed.

Lemma fresh_values_inv (autoStart : bool) : values_inv [] (fresh autoStart).
Proof.
  unfold values_inv. simpl. split; [|split; [|split]].
  - intros kv Hkv. by apply elem_of_nil in Hkv.
  - intros k r Hk. by rewrite lookup_empty in Hk.
  - intros k Hk. by apply elem_of_nil in Hk.
  - constructor.
Qed.

(** ** Rejections that are not fatal *)

(** A step adds a [reject] notification exactly when it is a failure that is
    rejected without a fatal outcome, and then for the task that failed. *)
Lemma step_rejections c s (l : Label) s' :
  step c s l = Some s' →
  rejected (trace s') = rejected (trace s) ++ option_list (rejected_by c s l).
Proof.
  intros Hstep.
  step_cases Hstep; unfold rejected;
    rewrite ?(omap_dequeue_events rejected_of) by done;
    norm_state;
    rewrite ?(omap_dequeue_events rejected_of) by done;
    cbn [rejected_by];
    rewrite ?Hi;
    repeat match goal with
           | H : will_retry _ _ _ = _ |- _ => rewrite H
           | H : fatal _ = _ |- _ => rewrite H
           end;
    by rewrite ?app_nil_r.
Qed.

Lemma run_rejections c (ls : list Label) s s' :
  run c s ls = Some s' →
  rejected (trace s') = rejected (trace s) ++ rejections c s ls.
Proof.
  revert s. induction ls as [|l ls IH]; intros s Hrun; simpl in Hrun |- *.
  - injection Hrun as <-. by rewrite app_nil_r.
  - destruct (step c s l) as [s1|] eqn:Hstep; [|done].
    by rewrite (IH s1 Hrun), (step_rejections c s l s1 Hstep), app_assoc.
Qed.

(** ** The order guarantee *)

(** After [attemptEmit] the cursor rests on a sequence number for which
    neither a value nor a rejection is recorded. *)
Lemma attemptEmit_rests c (res : T) inputInfo s :
  guaranteeOrder c = true →
  let s' := attemptEmit c res inputInfo s in
  resolveObject s' !! completed s' = None ∧
  rejectObject s' !! completed s' = None.
Proof.
  intros Hordered. unfold attemptEmit, continue. rewrite Hordered. simpl.
  apply drain_enough_fuel.
Qed.

(** A run that ends with a fulfilled task ends with a call of
    [attemptEmit]. *)
Lemma run_fulfilled_last c (ls : list Label) (i : nat) (v : T) s0 s :
  run c s0 (ls ++ [Settle i (inl v)]) = Some s →
  ∃ s1 inputInfo, s = attemptEmit c v inputInfo s1.
Proof.
  rewrite run_app. destruct (run c s0 ls) as [s1|]; [|done]. simpl.
  destruct (pending s1 !! i) as [[inputInfo retryCount| |]|]; try done.
  intros [= <-]. by eexists _, _.
Qed.

(** C1: with the order guarantee enabled, in every run of a newly
    constructed queue in which [clear] is not called, whatever the order in
    which tasks settle:
    - the [resolve] notifications carry strictly increasing sequence
      numbers, all below the completion cursor; these are the numbers given
      out by [dequeue], whose notifications carry 0, 1, 2, ... in order, and
      every [resolve] notification names a task announced by one of them;
    - what the listeners receive is, each time, the value the task with
      that sequence number was fulfilled with (no task is fulfilled twice),
      and the value of every fulfilled task has been delivered or waits in
      [resolveObject];
    - the failures rejected without a fatal outcome are exactly the
      [reject] notifications, in order; such a sequence number never gets a
      [resolve] notification; it stays recorded in [rejectObject] until the
      cursor has passed it; every sequence number below the cursor was
      resolved or rejected; the cursor never rests on a stored value, and
      after every fulfilled task (the draining) it rests on a sequence number
      that is neither recorded nor rejected: the draining has carried it
      past every rejected sequence number it met. *)
Theorem resolve_order (options : option QueueOptions) (ls : list Label) s :
  let c := (constructor options).1 in
  let s0 := (constructor options).2 in
  guaranteeOrder c = true →
  Forall (λ l, l ≠ CallClear) ls →
  run c s0 ls = Some s →
  (StronglySorted lt (resolved (trace s)) ∧
   (∀ k, k ∈ resolved (trace s) → k < completed s) ∧
   resolved (trace s) = ii_index <$> resolved_infos (trace s) ∧
   ii_index <$> dequeued (trace s) = seq 0 (index s) ∧
   (∀ inputInfo,
      inputInfo ∈ resolved_infos (trace s) → inputInfo ∈ dequeued (trace s))) ∧
  (resolved (trace s) = (resolutions (trace s)).*1 ∧
   resolve_values (trace s) = (resolutions (trace s)).*2 ∧
   (∀ kv, kv ∈ resolutions (trace s) → kv ∈ fulfilled c s0 ls) ∧
   NoDup (fulfilled c s0 ls).*1 ∧
   (∀ k, k ∈ (fulfilled c s0 ls).*1 →
         is_Some (resolveObject s !! k) ∨ k ∈ resolved (trace s))) ∧
  (rejected (trace s) = rejections c s0 ls ∧
   (∀ k, k ∈ rejected (trace s) → k ∉ resolved (trace s)) ∧
   (∀ k, k ∈ rejected (trace s) → completed s ≤ k →
         is_Some (rejectObject s !! k)) ∧
   (∀ k, k < completed s → k ∈ resolved (trace s) ∨ k ∈ rejected (trace s)) ∧
   resolveObject s !! completed s = None ∧
   (∀ ls0 (i : nat) (v : T),
      ls = ls0 ++ [Settle i (inl v)] →
      rejectObject s !! completed s = None ∧
      completed s ∉ rejected (trace s))).
Proof.
  intros c s0 Hordered Hls Hrun.
  assert (order_inv s ∧ cursor_inv s)
    as [[Hsorted Hbelow _ _ _ _ Hresolved _]
        [[Hpassed _ Hkept _ _ _] Hgap]].
  { apply (run_invariant c (λ s, order_inv s ∧ cursor_inv s)
             (λ _ l, l ≠ CallClear))
      with (ls := ls) (s := s0).
    - intros s1 l s2 Hl Hstep [Horder Hcursor]. split.
      + by apply (step_order_inv c s1 l).
      + by apply (step_cursor_inv c s1 l).
    - by apply guarded_Forall.
    - done.
    - unfold s0. rewrite constructor_fresh.
      split; [apply fresh_order_inv | apply fresh_cursor_inv]. }
  assert (announce_inv s) as [Hnumbered _ _ Hannounced].
  { apply (run_invariant c announce_inv (λ _ l, l ≠ CallClear))
      with (ls := ls) (s := s0).
    - intros s1 l s2 Hl Hstep. by apply (step_announce_inv c s1 l).
    - by apply guarded_Forall.
    - done.
    - unfold s0. rewrite constructor_fresh. apply fresh_announce_inv. }
  assert (values_inv (fulfilled c s0 ls) s) as (Hout & _ & Hall & Hnodup).
  { apply (run_values_inv c ls s0 s [] Hordered Hls Hrun);
      unfold s0; rewrite constructor_fresh;
      [apply fresh_order_inv | apply fresh_values_inv]. }
  split; [|split].
  - split; [done|]. split; [done|].
    split; [apply resolved_resolved_infos|]. by split.
  - split; [apply resolved_resolutions|].
    split; [apply resolve_values_resolutions|]. by repeat split.
  - split; [by rewrite (run_rejections c ls s0 s Hrun)|].
    split; [intros k Hrej Hres; by destruct (Hresolved k Hres)|].
    split; [exact Hkept|]. split; [exact Hpassed|]. split; [exact Hgap|].
    intros ls0 i v ->.
    destruct (run_fulfilled_last c ls0 i v s0 s Hrun) as (s1 & inputInfo & Hs).
    assert (rejectObject s !! completed s = None) as Hnone
      by (rewrite Hs; by apply attemptEmit_rests).
    split; [done|]. intros Hrej.
    destruct (Hkept _ Hrej) as [e He]; [done|]. by rewrite Hnone in He.
Qed.

End Properties.

(** * Concrete runs *)

(** Replaces a run by its result. *)
Ltac run_eval :=
  match goal with
  | |- context [run ?c ?s ?ls] =>
      let r := eval vm_compute in (run c s ls) in
      replace (run c s ls) with r by (vm_compute; reflexivity)
  end;
  cbn.

(** No label of a given list is the excluded one. *)
Ltac no_label := repeat (constructor; [discriminate|]); constructor.

(** ** In-flight count *)

(** C2 as stated fails in three ways: six direct [dequeue] calls on a stopped
    queue of six tasks take six slots out of five; a task settling after
    [clear] brings the count to -1; on a one-slot queue an [enqueue] during
    the pacing wait of the first task lets [start] and then the wake-up both
    take the freed slot. *)
Lemma in_flight_count_leaves_bounds :
  from_option
    (λ s, runningCount s = 6%Z ∧
          ¬ (0 ≤ runningCount s ≤ concurrent default_config)%Z)
    False (run default_config new_queue direct_dequeue_run) ∧
  from_option
    (λ s, runningCount s = (-1)%Z ∧
          ¬ (0 ≤ runningCount s ≤ concurrent default_config)%Z)
    False (run default_config new_queue clear_mid_run) ∧
  from_option
    (λ s, runningCount s = 2%Z ∧
          ¬ (0 ≤ runningCount s ≤ concurrent (config_of one_slot))%Z)
    False (run (config_of one_slot) (queue_of one_slot) enqueue_while_pacing_run).
Proof.
  split; [|split]; run_eval; (split; [reflexivity|]); vm_compute;
    intros [H1 H2]; first [by apply H1 | by apply H2].
Qed.

Lemma runningCount_bounds_witness :
  from_option
    (λ s, (0 ≤ task_frames s ≤ runningCount s)%Z ∧
          (runningCount s + pacing_waits s ≤ concurrent default_config)%Z ∧
          (0 ≤ runningCount s ≤ concurrent default_config)%Z)
    False (run default_config new_queue two_tasks_run).
Proof.
  destruct (run default_config new_queue two_tasks_run) as [s|] eqn:Hrun;
    [|by vm_compute in Hrun].
  simpl.
  destruct (runningCount_bounds (T:=nat) (E:=nat) (F:=nat) None two_tasks_run s)
    as [Hlower Hupper]; [by vm_compute | exact Hrun |].
  split; [apply Hlower; no_label|].
  apply Hupper. vm_compute. tauto.
Defined.

(** ** Order of notifications *)

(** C1 as stated fails when [clear] is called during a run: the tasks in
    flight keep their sequence numbers while the numbering and the cursor
    start again at 0.  Tasks 7, 8, 9 and 10 are enqueued in this order; the
    listeners receive the value of 7, then that of 9, then that of 8, under
    the sequence numbers 0, 0, 1, and the value of 10 is stored behind the
    cursor and never delivered. *)
Lemma clear_breaks_resolve_order :
  guaranteeOrder default_config = true ∧
  from_option
    (λ s, resolve_values (trace s) = [70; 90; 80] ∧
          ii_fn <$> resolved_infos (trace s) = [7; 9; 8] ∧
          resolved (trace s) = [0; 0; 1] ∧
          ¬ StronglySorted lt (resolved (trace s)) ∧
          resolveObject s !! 1 = Some (100, mkInputInfo 1 0 10) ∧
          completed s = 2)
    False (run default_config new_queue clear_reorders_run).
Proof.
  split; [reflexivity|]. vm_compute.
  repeat match goal with |- _ ∧ _ => split end; try reflexivity.
  intros Hsorted. apply StronglySorted_inv in Hsorted as [_ Hfirst].
  apply Forall_inv in Hfirst. lia.
Qed.

Lemma resolve_order_witness :
  from_option
    (λ s, (StronglySorted lt (resolved (trace s)) ∧
           rejected (trace s) =
             rejections (config_of ignore) (queue_of ignore)
               rejected_first_run ∧
           (∀ k, k ∈ rejected (trace s) → k ∉ resolved (trace s)) ∧
           (∀ kv, kv ∈ resolutions (trace s) →
                  kv ∈ fulfilled (config_of ignore) (queue_of ignore)
                         rejected_first_run) ∧
           rejectObject s !! completed s = None ∧
           completed s ∉ rejected (trace s)) ∧
          resolved (trace s) = [1; 2] ∧
          resolve_values (trace s) = [80; 90] ∧
          rejected (trace s) = [0] ∧
          completed s = 3)
    False (run (config_of ignore) (queue_of ignore) rejected_first_run).
Proof.
  destruct (run (config_of ignore) (queue_of ignore) rejected_first_run)
    as [s|] eqn:Hrun; [|by vm_compute in Hrun].
  cbn [from_option]. split.
  - destruct (resolve_order (T:=nat) (E:=nat) (F:=nat) (Some ignore)
                rejected_first_run s)
      as ((Hsorted & _) & (_ & _ & Hvalues & _) &
          (Hrejections & Hnever & _ & _ & _ & Hlast));
      [reflexivity | no_label | exact Hrun |].
    destruct (Hlast [CallEnqueue 7; CallEnqueue 8; CallEnqueue 9;
                     Settle 1 (inl 80); Settle 0 (inr 5)] 0 90 eq_refl)
      as [Hnone Hpast].
    exact (conj Hsorted (conj Hrejections (conj Hnever (conj Hvalues
             (conj Hnone Hpast))))).
  - vm_compute in Hrun. by injection Hrun as <-.
Defined.

(** ** Direct [dequeue] *)

Lemma dequeue_ignores_admission_witness :
  queue full_queue = [7] ∧
  runningCount full_queue = concurrent default_config ∧
  shouldRun default_config full_queue = false ∧
  queue (dequeue full_queue) = [] ∧
  index (dequeue full_queue) = 6 ∧
  runningCount (dequeue full_queue) = 6%Z.
Proof.
  destruct (dequeue_ignores_admission default_config full_queue 7 [])
    as (Hq & Hi & Hc & _ & _ & Hfull & _); [by vm_compute|].
  split; [by vm_compute|]. split; [by vm_compute|].
  split; [apply Hfull; by vm_compute|].
  split; [exact Hq|]. split; [exact Hi | exact Hc].
Defined.

(** ** [clear] *)

(** C5 as stated fails after [stop]: [clear] leaves the auto-start flag off,
    so the next [enqueue] only queues the task, where a newly constructed
    queue starts it. *)
Lemma clear_after_stop_is_not_new :
  from_option
    (λ s, trace s = [EvStop; EvEnqueue (mkQueueItem 0 7)] ∧
          queue s = [7] ∧ runningCount s = 0%Z ∧ isRunning s = false)
    False (run default_config new_queue [CallStop; CallClear; CallEnqueue 7]) ∧
  from_option
    (λ s, trace s =
            [EvEnqueue (mkQueueItem 0 7); EvStart;
             EvDequeue (mkInputInfo 0 0 7)] ∧
          queue s = [] ∧ runningCount s = 1%Z ∧ isRunning s = true)
    False (run default_config new_queue [CallEnqueue 7]).
Proof. vm_compute. repeat split. Qed.

(** ** Retries *)

Lemma exhausted_retries_terminal_witness :
  (let s := running_queue default_config in
   trace (handleRejection default_config 9 first_task 6 s) =
     trace s ++ [EvFail 9; EvEnd] ∧
   isRunning (handleRejection default_config 9 first_task 6 s) = false) ∧
  (let c := config_of retry_then_ignore in
   let s := running_queue c in
   trace (handleRejection c 9 first_task 3 s) =
     trace s ++ [EvReject 9 first_task; EvEnd; EvFinish] ∧
   runningCount (handleRejection c 9 first_task 3 s) = 0%Z).
Proof.
  split.
  - intros s.
    destruct (exhausted_retries_terminal default_config s 9 first_task 6)
      as [Hfail _]; [reflexivity | vm_compute; lia |].
    by rewrite (Hfail eq_refl).
  - intros c s.
    destruct (exhausted_retries_terminal c s 9 first_task 3)
      as [_ Hignore]; [reflexivity | vm_compute; lia |].
    destruct (Hignore eq_refl) as (_ & Htrace & _ & Hcount & _).
    split; [exact Htrace | exact Hcount].
Defined.


Lemma retry_wait_duration_witness :
  retryIn default_config (Some 5%Z) 0 = Some 5%Z ∧
  retryIn default_config None 2 = Some 5000%Z ∧
  retryIn (config_of always_retry) None 7 = Some 3%Z ∧
  from_option (λ s, pending s = [AwaitTask first_task 4]) False
    (run (config_of always_retry)
       (set_pending [AwaitTask first_task 0] (running_queue (config_of always_retry)))
       (retry_rounds (config_of always_retry) 9 0 0 4)).
Proof.
  set (c := config_of always_retry).
  set (s := running_queue default_config).
  split; [|split; [|split]].
  - destruct (retry_wait_duration default_config s 9 first_task (Some 5%Z) 0)
      as (_ & _ & _ & Hoverride & _); [reflexivity|].
    by apply Hoverride.
  - destruct (retry_wait_duration default_config s 9 first_task None 2)
      as (_ & _ & _ & _ & Hladder & _); [reflexivity|].
    destruct Hladder as [Hwait _]; [reflexivity | vm_compute; lia |].
    exact Hwait.
  - destruct (retry_wait_duration c s 9 first_task None 7)
      as (_ & _ & _ & _ & _ & Hlast & _); [reflexivity|].
    destruct Hlast as [_ Hwait]; [reflexivity | vm_compute; lia |].
    exact Hwait.
  - destruct (retry_wait_duration c s 9 first_task None 0)
      as (_ & _ & _ & _ & _ & _ & Hforever); [reflexivity|].
    destruct (Hforever eq_refl (or_introl eq_refl) (conj eq_refl eq_refl) [] 4
                (set_pending [AwaitTask first_task 0] (running_queue c)) eq_refl)
      as (s' & Hrun & Hpend & _).
    simpl length in Hrun. rewrite Hrun. exact Hpend.
Defined.

Lemma empty_ladder_absent_wait_witness :
  let c := config_of empty_ladder in
  let s := running_queue c in
  retryIn c None 4 = None ∧
  trace (handleRejection c 9 first_task 4 s) =
    trace s ++ [EvPrepareRetry 9 None first_task].
Proof.
  intros c s.
  destruct (empty_ladder_absent_wait (T:=nat) (F:=nat) empty_ladder s 9
              first_task 4 eq_refl eq_refl (or_introl eq_refl)
              (conj eq_refl eq_refl))
    as (_ & _ & _ & _ & Hwait & Htrace & _).
  split; [exact Hwait | exact Htrace].
Defined.

(** ** Fail-fast *)

Lemma fail_fast_halts_witness :
  let c := config_of fail_fast in
  let s := running_queue c in
  from_option
    (λ s', isRunning s' = false ∧ trace s' = trace s ++ [EvFail 9; EvEnd])
    False (step c s (Settle 0 (inr 9))).
Proof.
  intros c s.
  destruct (fail_fast_halts c s 0 first_task 0 9 eq_refl eq_refl)
    as (s' & Hstep & Hhalted & Htrace & _).
  rewrite Hstep. simpl. split; [exact Hhalted | exact Htrace].
Defined.

(** ** Failures that are not notified *)

(** C7 as stated fails when the run has ended before the failure: the first
    of two tasks is fulfilled and its pacing wait ends on an empty pending
    queue, which ends the run ([end], [finish]); the second task then fails,
    the first failure of the run, and nothing is emitted. *)
Lemma fail_fast_failure_after_finish :
  let c := config_of fail_fast in
  onRejection c = THROW ∧
  from_option
    (λ s,
       isRunning s = false ∧
       pending s = [AwaitTask (mkInputInfo 1 0 8) 0] ∧
       List.filter surfaces (trace s) = [] ∧
       from_option
         (λ s', trace s' = trace s ∧ pending s' = [] ∧ isRunning s' = false)
         False (step c s (Settle 0 (inr 80))))
    False
    (run c (queue_of fail_fast)
       [CallEnqueue 7; CallEnqueue 8; Settle 0 (inl 70); Tick 500; Wake 1]).
Proof. vm_compute. repeat split. Qed.

(** C3 as stated fails in the same way under retry-then-fail: while the second
    task waits for its only retry the first one is fulfilled and the run
    ends; the retry fails with the ladder exhausted and nothing is
    emitted. *)
Lemma exhausted_retry_after_finish :
  let c := config_of short_ladder in
  onRejection c = RETRY_THEN_THROW ∧
  alwaysRetry c = false ∧
  retryIntervals c = [1%Z] ∧
  from_option
    (λ s,
       isRunning s = false ∧
       pending s = [AwaitTask (mkInputInfo 1 0 8) 1] ∧
       List.filter surfaces (trace s) = [] ∧
       from_option
         (λ s', trace s' = trace s ∧ pending s' = [] ∧ isRunning s' = false)
         False (step c s (Settle 0 (inr 81))))
    False
    (run c (queue_of short_ladder)
       [CallEnqueue 7; CallEnqueue 8; Settle 1 (inr 80); Settle 0 (inl 70);
        Tick 500; Wake 1; Wake 0]).
Proof. vm_compute. repeat split. Qed.

(** C8 as stated fails in two ways.  Under the default policy a failure is
    answered by [prepareRetry]; when the retry succeeds the task resolves and
    the failure has led to neither [reject] nor [fail].  Under fail-fast a
    task that fails after [stop] leaves no notification at all. *)
Lemma failure_without_notification :
  from_option
    (λ s,
       trace s =
         [EvEnqueue (mkQueueItem 0 7); EvStart; EvDequeue first_task;
          EvPrepareRetry 9 (Some 1000%Z) first_task; EvRetry first_task;
          EvResolve 70 first_task] ∧
       List.filter surfaces (trace s) = [])
    False
    (run default_config new_queue
       [CallEnqueue 7; Settle 0 (inr 9); Tick 1000; Wake 0; Settle 0 (inl 70)]) ∧
  from_option
    (λ s,
       trace s =
         [EvEnqueue (mkQueueItem 0 7); EvStart; EvDequeue first_task;
          EvStop; EvEnd] ∧
       pending s = [])
    False
    (run (config_of fail_fast) (queue_of fail_fast)
       [CallEnqueue 7; CallStop; Settle 0 (inr 9)]).
Proof. vm_compute. repeat split. Qed.
